(** * csv2txt: the table renderer of [csv2txt/csv2txt.py]

    A shallow embedding of class [CSV2TXT] (escape, wrap_cell, align_text,
    align_cell, get_rows, generate) together with the parts of the Python
    runtime the class calls: the [str] methods, [textwrap.wrap] and
    [csv.reader].  Python exceptions are values of [result]. *)

From Stdlib Require Import ZArith NArith Lia Ascii String.
From stdpp Require Import base tactics option numbers list.

Local Open Scope Z_scope.

(** ** Python values *)

(** A [str] is a sequence of Unicode code points. *)
Abbreviation char := N (only parsing).
Abbreviation str := (list char) (only parsing).

(** An ASCII literal as a [str]. *)
Definition lit (s : String.string) : str :=
  N_of_ascii <$> list_ascii_of_string s.

(** [len(x)] is a Python int. *)
Definition len {A} (l : list A) : Z := Z.of_nat (length l).

Inductive exn :=
  | ValueError     (* max() of an empty sequence, unpacking, textwrap's width *)
  | IndexError     (* list index out of range *)
  | CsvError       (* _csv.Error *)
  | OutOfFuel.     (* a loop of the model ran out of fuel; never a Python result *)

Inductive result (A : Type) :=
  | Ok (a : A)
  | Raise (e : exn).
Arguments Ok {A} a.
Arguments Raise {A} e.

(** An exception raised by [m] ends the computation. *)
Definition bind {A B} (m : result A) (f : A → result B) : result B :=
  match m with
  | Ok a => f a
  | Raise e => Raise e
  end.

Notation "x <- m ;; k" := (bind m (λ x, k))
  (at level 100, m at next level, right associativity).

(** [for x in l: acc = body(acc, x)] with exceptions. *)
Fixpoint for_each {A S} (body : S → A → result S) (acc : S) (l : list A) : result S :=
  match l with
  | [] => Ok acc
  | x :: l' => acc' <- body acc x;; for_each body acc' l'
  end.

(** [[f(x) for x in l]] with exceptions. *)
Fixpoint list_comp {A B} (f : A → result B) (l : list A) : result (list B) :=
  match l with
  | [] => Ok []
  | x :: l' => y <- f x;; ys <- list_comp f l';; Ok (y :: ys)
  end.

(** [l[i]] for a non-negative [i]. *)
Definition index {A} (l : list A) (i : nat) : result A :=
  match l !! i with
  | Some x => Ok x
  | None => Raise IndexError
  end.

(** [max(l)]. *)
Definition py_max (l : list Z) : result Z :=
  match l with
  | [] => Raise ValueError
  | x :: l' => Ok (foldl Z.max x l')
  end.

(** [sum(l)]. *)
Definition py_sum (l : list Z) : Z := foldl Z.add 0 l.

(** [l or d]. *)
Definition or_else {A} (l d : list A) : list A :=
  match l with
  | [] => d
  | _ :: _ => l
  end.

(** [range(n)]. *)
Definition range (n : Z) : list nat := seq 0 (Z.to_nat n).

(** [enumerate(l)]. *)
Definition enumerate {A} (l : list A) : list (nat * A) := zip (seq 0 (length l)) l.

(** ** The [str] methods the program calls *)

Module Str.

Definition LF : char := 10%N.
Definition CR : char := 13%N.
Definition SP : char := 32%N.
Definition TAB : char := 9%N.
Definition DQUOTE : char := 34%N.
Definition HYPHEN : char := 45%N.
Definition BACKSLASH : char := 92%N.
Definition LOWER_N : char := 110%N.

(** [s * n] and [[x] * n]: nothing for [n <= 0]. *)
Definition times {A} (s : list A) (n : Z) : list A :=
  concat (replicate (Z.to_nat n) s).

Fixpoint join (sep : str) (parts : list str) : str :=
  match parts with
  | [] => []
  | p :: ps =>
    match ps with
    | [] => p
    | _ :: _ => p ++ sep ++ join sep ps
    end
  end.

Fixpoint startswith (s prefix : str) {struct prefix} : bool :=
  match prefix, s with
  | [], _ => true
  | _ :: _, [] => false
  | a :: prefix', b :: s' => (a =? b)%N && startswith s' prefix'
  end.

(** [s.replace(old, new)] scans left to right and skips over each match;
    [skip] counts the characters of a match still to be passed. *)
Fixpoint replace_scan (old new : str) (skip : nat) (s : str) : str :=
  match s with
  | [] => []
  | c :: s' =>
    match skip with
    | S k => replace_scan old new k s'
    | O =>
      if startswith s old
      then new ++ replace_scan old new (length old - 1) s'
      else c :: replace_scan old new 0 s'
    end
  end.

Definition replace (s old new : str) : str :=
  match old with
  | [] => new ++ concat ((λ c, c :: new) <$> s)
  | _ :: _ => replace_scan old new 0 s
  end.

(** The line boundaries of [str.splitlines]: \n \v \f \r \x1c \x1d \x1e
    \x85 U+2028 U+2029 (and \r\n as one). *)
Definition is_linebreak (c : char) : bool :=
  bool_decide (c ∈ [10; 11; 12; 13; 28; 29; 30; 133; 8232; 8233]%N).

(** The text up to the first boundary, and the pieces after each boundary;
    [after_cr] tells that the previous character was a \r, whose \n is
    part of the same boundary. *)
Fixpoint pieces (after_cr : bool) (s : str) : str * list str :=
  match s with
  | [] => ([], [])
  | c :: s' =>
    if after_cr && (c =? LF)%N then pieces false s'
    else if is_linebreak c then
      let '(l, ls) := pieces (c =? CR)%N s' in ([], l :: ls)
    else
      let '(l, ls) := pieces false s' in (c :: l, ls)
  end.

(** Drops a final empty piece: the text after the last boundary is a line
    only when it is not empty. *)
Fixpoint drop_last_empty (ls : list str) : list str :=
  match ls with
  | [] => []
  | l :: ls' =>
    match ls' with
    | [] => match l with [] => [] | _ :: _ => [l] end
    | _ :: _ => l :: drop_last_empty ls'
    end
  end.

Definition splitlines (s : str) : list str :=
  let '(l, ls) := pieces false s in drop_last_empty (l :: ls).

(** [str.isspace] of one character (Unicode White_Space and the
    bidirectional types WS, B, S). *)
Definition isspace (c : char) : bool :=
  ((9 <=? c) && (c <=? 13) || (28 <=? c) && (c <=? 32) ||
   bool_decide (c ∈ [133; 160; 5760; 8232; 8233; 8239; 8287; 12288]) ||
   (8192 <=? c) && (c <=? 8202))%N.

(** The word in progress and the words after it. *)
Fixpoint words (s : str) : str * list str :=
  match s with
  | [] => ([], [])
  | c :: s' =>
    let '(w, ws) := words s' in
    if isspace c then ([], match w with [] => ws | _ :: _ => w :: ws end)
    else (c :: w, ws)
  end.

(** [s.split()]: the maximal runs of characters that are not whitespace. *)
Definition split (s : str) : list str :=
  let '(w, ws) := words s in
  match w with [] => ws | _ :: _ => w :: ws end.

(** [s.strip() == '']. *)
Definition isblank (s : str) : bool := forallb isspace s.

Definition ljust (s : str) (width : Z) : str := s ++ times [SP] (width - len s).
Definition rjust (s : str) (width : Z) : str := times [SP] (width - len s) ++ s.

(** CPython's [str.center]: of an odd margin the extra space goes to the
    left when the width is odd, to the right when it is even. *)
Definition center (s : str) (width : Z) : str :=
  let marg := width - len s in
  if marg <=? 0 then s
  else
    let left := marg / 2 + Z.land (Z.land marg width) 1 in
    times [SP] left ++ s ++ times [SP] (marg - left).

(** [s.expandtabs(tabsize)]; [column] restarts after \n and \r. *)
Fixpoint expandtabs_from (tabsize : Z) (column : Z) (s : str) : str :=
  match s with
  | [] => []
  | c :: s' =>
    if (c =? TAB)%N then
      if 0 <? tabsize then
        let incr := tabsize - column mod tabsize in
        times [SP] incr ++ expandtabs_from tabsize (column + incr) s'
      else expandtabs_from tabsize column s'
    else
      c :: expandtabs_from tabsize
             (if (c =? LF)%N || (c =? CR)%N then 0 else column + 1) s'
  end.

Definition expandtabs (s : str) (tabsize : Z) : str := expandtabs_from tabsize 0 s.

End Str.


(** ** [textwrap.wrap(text, width)]

    [TextWrapper] with its default options: tabs expanded to 8 columns,
    whitespace replaced by spaces, whitespace dropped at line ends, long
    words broken, breaks allowed after hyphens, no indents, no line limit.
    The classes \w and \d of the word-splitting pattern are those of the
    ASCII range. *)

Module TextWrap.
Import Str.

(** [_whitespace]. *)
Definition is_whitespace (c : char) : bool :=
  bool_decide (c ∈ [9; 10; 11; 12; 13; 32]%N).

Definition is_digit (c : char) : bool := ((48 <=? c) && (c <=? 57))%N.

(** [letter = [^\d\W]]. *)
Definition is_letter (c : char) : bool :=
  ((65 <=? c) && (c <=? 90) || (97 <=? c) && (c <=? 122) || (c =? 95))%N.

(** \w *)
Definition is_word (c : char) : bool := is_letter c || is_digit c.

(** [word_punct]: \w, and ! & . , ? and the two quote characters. *)
Definition is_word_punct (c : char) : bool :=
  is_word c || bool_decide (c ∈ [33; 34; 39; 38; 46; 44; 63]%N).

Definition munge_whitespace (text : str) : str :=
  (λ c, if is_whitespace c then SP else c) <$> expandtabs text 8.

(** [letter -? letter], read forwards after a hyphen or backwards before
    it: the look-ahead [(?= lt -? lt)], and the look-behinds [(?<=lt{2}-)]
    and [(?<=lt-lt-)] taken together. *)
Definition two_letters (s : str) : bool :=
  match s with
  | a :: b :: s' =>
    is_letter a &&
    (is_letter b ||
     (b =? HYPHEN)%N && match s' with c :: _ => is_letter c | [] => false end)
  | _ => false
  end.

(** A hyphenated word ends after the hyphen at the head of [after]. *)
Definition hyphen_break (before after : str) : bool :=
  match after with
  | c :: after' => (c =? HYPHEN)%N && two_letters before && two_letters after'
  | [] => false
  end.

Fixpoint after_hyphens (s : str) : nat * str :=
  match s with
  | c :: s' =>
    if (c =? HYPHEN)%N then let '(n, r) := after_hyphens s' in (S n, r)
    else (O, s)
  | [] => (O, [])
  end.

(** [(?<=wp) (?=-{2,}\w)]: an em-dash between words starts here. *)
Definition emdash_ahead (before after : str) : bool :=
  match before with p :: _ => is_word_punct p | [] => false end &&
  (let '(n, r) := after_hyphens after in
   (2 <=? n)%nat && match r with w :: _ => is_word w | [] => false end).

Inductive chunk_kind := Blank | Dashes | Word.

(** The alternative of the pattern that matches from the head of [after]:
    whitespace, an em-dash between words, or a word. *)
Definition match_kind (before after : str) : chunk_kind :=
  match after with
  | c :: _ =>
    if is_whitespace c then Blank
    else if emdash_ahead before after then Dashes
    else Word
  | [] => Word
  end.

(** Whether the match in progress takes the head of [after] as well. *)
Definition goes_on (kind : chunk_kind) (before after : str) : bool :=
  match after with
  | c :: _ =>
    match kind with
    | Blank => is_whitespace c
    | Dashes => (c =? HYPHEN)%N
    | Word => negb (is_whitespace c || emdash_ahead before after)
    end
  | [] => false
  end.

(** [wordsep_re.split]: the matches of the pattern follow one another and
    cover the text.  [before] is the text already read and [cur] the match
    in progress, both backwards; an empty [cur] means a match starts. *)
Fixpoint chunks_from (kind : chunk_kind) (before cur after : str) : list str :=
  match after with
  | [] => match cur with [] => [] | _ :: _ => [reverse cur] end
  | c :: after' =>
    match cur with
    | [] => chunks_from (match_kind before after) (c :: before) [c] after'
    | _ :: _ =>
      match kind with
      | Word =>
        if hyphen_break before after
        then reverse (c :: cur) :: chunks_from Word (c :: before) [] after'
        else if goes_on Word before after
        then chunks_from Word (c :: before) (c :: cur) after'
        else reverse cur ::
             chunks_from (match_kind before after) (c :: before) [c] after'
      | _ =>
        if goes_on kind before after
        then chunks_from kind (c :: before) (c :: cur) after'
        else reverse cur ::
             chunks_from (match_kind before after) (c :: before) [c] after'
      end
    end
  end.

Definition split_chunks (text : str) : list str :=
  chunks_from Word [] [] (munge_whitespace text).

(** [s[:n]] and [s[n:]]. *)
Definition upto (s : str) (n : Z) : str :=
  take (Z.to_nat (if n <? 0 then len s + n else n)) s.
Definition from (s : str) (n : Z) : str :=
  drop (Z.to_nat (if n <? 0 then len s + n else n)) s.

(** [s.rfind('-')], counting from [i]. *)
Fixpoint rfind_hyphen (i : Z) (s : str) : Z :=
  match s with
  | [] => -1
  | c :: s' =>
    let r := rfind_hyphen (i + 1) s' in
    if r =? -1 then (if (c =? HYPHEN)%N then i else -1) else r
  end.

(** The inner [while chunks] loop: chunks are taken while they fit. *)
Fixpoint fill_line (width : Z) (cur_line : list str) (cur_len : Z)
    (chunks : list str) : list str * Z * list str :=
  match chunks with
  | [] => (cur_line, cur_len, [])
  | chunk :: chunks' =>
    if cur_len + len chunk <=? width
    then fill_line width (cur_line ++ [chunk]) (cur_len + len chunk) chunks'
    else (cur_line, cur_len, chunks)
  end.

(** [_handle_long_word]; the next chunk is the head of [chunks]. *)
Definition handle_long_word (chunks cur_line : list str) (cur_len width : Z)
    : list str * list str :=
  match chunks with
  | [] => (chunks, cur_line)
  | chunk :: rest =>
    let space_left := if width <? 1 then 1 else width - cur_len in
    let hyphen := rfind_hyphen 0 (upto chunk space_left) in
    let end_ :=
      if (space_left <? len chunk) && (0 <? hyphen) &&
         existsb (λ c, negb (c =? HYPHEN)%N) (upto chunk hyphen)
      then hyphen + 1
      else space_left in
    (from chunk end_ :: rest, cur_line ++ [upto chunk end_])
  end.

Definition drop_blank_end (cur_line : list str) : list str :=
  match reverse cur_line with
  | c :: before => if isblank c then reverse before else cur_line
  | [] => cur_line
  end.

(** One round of the outer [while chunks] loop of [_wrap_chunks]. *)
Definition wrap_line (width : Z) (lines chunks : list str) : list str * list str :=
  let chunks :=
    match chunks, lines with
    | c :: cs, _ :: _ => if isblank c then cs else chunks
    | _, _ => chunks
    end in
  let '(cur_line, cur_len, chunks) := fill_line width [] 0 chunks in
  let '(chunks, cur_line) :=
    match chunks with
    | c :: _ =>
      if width <? len c then handle_long_word chunks cur_line cur_len width
      else (chunks, cur_line)
    | [] => (chunks, cur_line)
    end in
  let cur_line := drop_blank_end cur_line in
  (match cur_line with
   | [] => lines
   | _ :: _ => lines ++ [concat cur_line]
   end, chunks).

Fixpoint wrap_chunks (fuel : nat) (width : Z) (lines chunks : list str)
    : result (list str) :=
  match chunks with
  | [] => Ok lines
  | _ :: _ =>
    match fuel with
    | O => Raise OutOfFuel
    | S fuel' =>
      let '(lines', chunks') := wrap_line width lines chunks in
      wrap_chunks fuel' width lines' chunks'
    end
  end.

(** What a round of the loop makes smaller. *)
Definition weight (chunks : list str) : nat :=
  length chunks + length (concat chunks).

Definition wrap (text : str) (width : Z) : result (list str) :=
  let chunks := split_chunks text in
  if width <=? 0 then Raise ValueError
  else wrap_chunks (weight chunks) width [] chunks.

End TextWrap.

(** ** [csv.reader(lines, delimiter = sep, skipinitialspace = True)]

    The reader of CPython's [_csv] module for the dialect the program asks
    for: the excel dialect (quote character, doubled quotes, no escape
    character, minimal quoting, not strict) with the given delimiter and
    with spaces skipped at the start of a field. *)

Module Csv.
Import Str.

Inductive ParserState :=
  | START_RECORD
  | START_FIELD
  | IN_FIELD
  | IN_QUOTED_FIELD
  | QUOTE_IN_QUOTED_FIELD
  | EAT_CRNL.

#[global] Instance ParserState_eq_dec : EqDecision ParserState.
Proof. solve_decision. Defined.

(** [field] and [fields] are kept backwards. *)
Record Reader := {
  state : ParserState;
  field : str;
  fields : list str;
}.

(** [csv.field_size_limit()]. *)
Definition field_limit : Z := 131072.

Definition parse_reset : Reader :=
  {| state := START_RECORD; field := []; fields := [] |}.

Definition set_state (self : Reader) (s : ParserState) : Reader :=
  {| state := s; field := field self; fields := fields self |}.

Definition parse_save_field (self : Reader) : Reader :=
  {| state := state self; field := []; fields := reverse (field self) :: fields self |}.

Definition parse_add_char (self : Reader) (c : char) : result Reader :=
  if field_limit <=? len (field self) then Raise CsvError
  else Ok {| state := state self; field := c :: field self; fields := fields self |}.

Definition is_newline (c : option char) : bool :=
  match c with
  | Some c => (c =? LF)%N || (c =? CR)%N
  | None => false
  end.

Definition is_char (c : option char) (d : char) : bool :=
  match c with
  | Some c => (c =? d)%N
  | None => false
  end.

(** After a line end: a new record after [EOL], else the rest of the
    line end is to be eaten. *)
Definition after_line (c : option char) : ParserState :=
  match c with
  | None => START_RECORD
  | Some _ => EAT_CRNL
  end.

Definition start_field (delimiter : char) (self : Reader) (c : option char)
    : result Reader :=
  if is_newline c || bool_decide (c = None) then
    Ok (set_state (parse_save_field self) (after_line c))
  else if is_char c DQUOTE then Ok (set_state self IN_QUOTED_FIELD)
  else if is_char c SP then Ok self
  else if is_char c delimiter then Ok (parse_save_field self)
  else
    match c with
    | Some ch => self <- parse_add_char self ch;; Ok (set_state self IN_FIELD)
    | None => Ok self
    end.

(** [parse_process_char]; [None] is the [EOL] sent after each line. *)
Definition parse_process_char (delimiter : char) (self : Reader) (c : option char)
    : result Reader :=
  match state self with
  | START_RECORD =>
    if bool_decide (c = None) then Ok self
    else if is_newline c then Ok (set_state self EAT_CRNL)
    else start_field delimiter (set_state self START_FIELD) c
  | START_FIELD => start_field delimiter self c
  | IN_FIELD =>
    if is_newline c || bool_decide (c = None) then
      Ok (set_state (parse_save_field self) (after_line c))
    else if is_char c delimiter then
      Ok (set_state (parse_save_field self) START_FIELD)
    else
      match c with
      | Some ch => parse_add_char self ch
      | None => Ok self
      end
  | IN_QUOTED_FIELD =>
    match c with
    | None => Ok self
    | Some ch =>
      if (ch =? DQUOTE)%N then Ok (set_state self QUOTE_IN_QUOTED_FIELD)
      else parse_add_char self ch
    end
  | QUOTE_IN_QUOTED_FIELD =>
    if is_char c DQUOTE then
      self <- parse_add_char self DQUOTE;; Ok (set_state self IN_QUOTED_FIELD)
    else if is_char c delimiter then
      Ok (set_state (parse_save_field self) START_FIELD)
    else if is_newline c || bool_decide (c = None) then
      Ok (set_state (parse_save_field self) (after_line c))
    else
      match c with
      | Some ch => self <- parse_add_char self ch;; Ok (set_state self IN_FIELD)
      | None => Ok self
      end
  | EAT_CRNL =>
    if is_newline c then Ok self
    else if bool_decide (c = None) then Ok (set_state self START_RECORD)
    else Raise CsvError
  end.

(** The characters of one line, then [EOL]. *)
Definition parse_line (delimiter : char) (self : Reader) (line : str) : result Reader :=
  self <- for_each (λ self c, parse_process_char delimiter self (Some c)) self line;;
  parse_process_char delimiter self None.

(** [Reader_iternext], called until the input is exhausted: a record ends
    when a line leaves the parser in [START_RECORD]; at the end of the
    input a record in progress is returned when it holds characters or is
    inside quotes. *)
Fixpoint records (delimiter : char) (self : Reader) (input : list str)
    : result (list (list str)) :=
  match input with
  | [] =>
    if bool_decide (field self ≠ []) || bool_decide (state self = IN_QUOTED_FIELD)
    then Ok [reverse (fields (parse_save_field self))]
    else Ok []
  | line :: input' =>
    self <- parse_line delimiter self line;;
    if bool_decide (state self = START_RECORD) then
      rows <- records delimiter parse_reset input';;
      Ok (reverse (fields self) :: rows)
    else records delimiter self input'
  end.

(** [list(reader(input, delimiter = sep, skipinitialspace = True))]. *)
Definition reader (input : list str) (delimiter : char) : result (list (list str)) :=
  records delimiter parse_reset input.

End Csv.

(** ** Class [CSV2TXT] *)

Import Str.

Inductive Align := LEFT | RIGHT | CENTER.

Inductive VAlign := TOP | MIDDLE | BOTTOM.

(** The fields of the dataclass.  [csv.reader] takes a delimiter of one
    character only, so [separator] is a character. *)
Record CSV2TXT := {
  border_symbols : str;
  spacing : Z;
  separator : char;
  max_width : option Z;
  align : option (list Align);
  valign : VAlign;
  title_align : Align;
}.

Definition post_init (self : CSV2TXT) : CSV2TXT :=
  {| border_symbols := border_symbols self;
     spacing := Z.max 0 (spacing self);
     separator := separator self;
     max_width := max_width self;
     align := align self;
     valign := valign self;
     title_align := title_align self |}.

(** [CSV2TXT()]: the field defaults, with the eleven box-drawing glyphs
    U+2500 U+2502 U+250C U+252C U+2510 U+251C U+253C U+2524 U+2514 U+2534
    U+2518 separated by spaces. *)
Definition default_config : CSV2TXT :=
  post_init
    {| border_symbols :=
         [9472; 32; 9474; 32; 9484; 32; 9516; 32; 9488; 32; 9500; 32; 9532; 32;
          9508; 32; 9492; 32; 9524; 32; 9496]%N;
       spacing := 1;
       separator := 44%N;
       max_width := None;
       align := None;
       valign := MIDDLE;
       title_align := CENTER |}.

Definition escape (self : CSV2TXT) (text : str) : str :=
  let sep := separator self in
  replace (replace text [BACKSLASH; LOWER_N] [LF]) [BACKSLASH; sep] [sep].

(** The body of the loop of [wrap_cell]; [if self.max_width] holds for an
    int other than 0. *)
Definition wrap_line_of (self : CSV2TXT) (wrapped : list str) (line : str)
    : result (list str) :=
  match max_width self with
  | Some width =>
    if width =? 0 then Ok (wrapped ++ [line])
    else ws <- TextWrap.wrap line width;; Ok (wrapped ++ ws)
  | None => Ok (wrapped ++ [line])
  end.

Definition wrap_cell (self : CSV2TXT) (text : option str) : result (list str) :=
  match text with
  | None => Ok [[]]
  | Some text =>
    let text := escape self text in
    let lines := splitlines text in
    wrapped <- for_each (wrap_line_of self) [] (or_else lines [[]]);;
    Ok (or_else wrapped [[]])
  end.

Definition align_text (text : str) (width : Z) (align : Align) : str :=
  match align with
  | LEFT => ljust text width
  | RIGHT => rjust text width
  | CENTER => center text width
  end.

(** [self.align[column]] when [self.align] is a list longer than [column],
    else [Align.LEFT]. *)
Definition align_cell (self : CSV2TXT) (text : str) (width : Z) (column : nat) : str :=
  let align :=
    match align self with
    | Some l => match l !! column with Some a => a | None => LEFT end
    | None => LEFT
    end in
  align_text text width align.

Definition com : str := lit "__COMMA__".

Definition get_rows (self : CSV2TXT) (input : list str) : result (list (list str)) :=
  let sep := separator self in
  let lines := (λ line, replace line [BACKSLASH; sep] com) <$> input in
  parser <- Csv.reader lines sep;;
  Ok ((λ row : list str, (λ cell, replace cell com [sep]) <$> row) <$> parser).

(** A wrapped cell is a list of lines; a row of the grid a list of cells. *)
Abbreviation Cell := (list str) (only parsing).

(** [row.extend([['']] * (cols - len(row)))] when the row is short. *)
Definition extend_row (cols : Z) (row : list Cell) : list Cell :=
  if len row <? cols then row ++ times [[[]]] (cols - len row) else row.

(** [cells] after the padding loop, with [cols]. *)
Definition grid (self : CSV2TXT) (rows : list (list (option str)))
    : result (list (list Cell) * Z) :=
  cells <- list_comp (list_comp (wrap_cell self)) rows;;
  cols <- py_max (len <$> rows);;
  Ok (extend_row cols <$> cells, cols).

(** [max(len(line) for row in cells for line in row[col])]. *)
Definition col_width (cells : list (list Cell)) (col : nat) : result Z :=
  lens <- for_each (λ lens row, cell <- index row col;; Ok (lens ++ (len <$> cell)))
         [] cells;;
  py_max lens.

Definition spaced_width (self : CSV2TXT) (width : Z) : Z := width + spacing self * 2.

Definition total_width_of (spaced_cols : list Z) : Z :=
  py_sum spaced_cols + (len spaced_cols - 1).

Record Glyphs := {
  H : str; V : str;
  TL : str; TM : str; TR : str;
  ML : str; MM : str; MR : str;
  BL : str; BM : str; BR : str;
}.

(** [H, V, TL, TM, TR, ML, MM, MR, BL, BM, BR = self.border_symbols.split()]. *)
Definition unpack (l : list str) : result Glyphs :=
  match l with
  | [h; v; tl; tm; tr; ml; mm; mr; bl; bm; br] =>
    Ok {| H := h; V := v; TL := tl; TM := tm; TR := tr; ML := ml; MM := mm;
          MR := mr; BL := bl; BM := bm; BR := br |}
  | _ => Raise ValueError
  end.

(** The local function of [generate]; [H] and [spaced_cols] are the
    variables it closes over. *)
Definition make_separator (H : str) (spaced_cols : list Z) (left center right : str)
    : str :=
  left ++ join center ((λ w, times H w) <$> spaced_cols) ++ right.

(** What [generate] has computed when it starts to collect [lines]. *)
Record Layout := {
  cells : list (list Cell);
  cols_width : list Z;
  spaced_cols : list Z;
  total_width : Z;
  glyphs : Glyphs;
  top : str;
  middle : str;
  bottom : str;
}.

Definition layout (self : CSV2TXT) (rows : list (list (option str))) : result Layout :=
  g <- grid self rows;;
  let '(cells, cols) := g in
  cols_width <- list_comp (col_width cells) (range cols);;
  let spaced_cols := spaced_width self <$> cols_width in
  let total_width := total_width_of spaced_cols in
  g <- unpack (split (border_symbols self));;
  Ok {| cells := cells;
        cols_width := cols_width;
        spaced_cols := spaced_cols;
        total_width := total_width;
        glyphs := g;
        top := make_separator (H g) spaced_cols (TL g) (TM g) (TR g);
        middle := make_separator (H g) spaced_cols (ML g) (MM g) (MR g);
        bottom := make_separator (H g) spaced_cols (BL g) (BM g) (BR g) |}.

(** The lines that open the table; [not title] holds for [None] and for
    the empty string. *)
Definition head_lines (self : CSV2TXT) (t : Layout) (title : option str) : list str :=
  let g := glyphs t in
  match title with
  | None | Some [] => [top t]
  | Some title =>
    let title_text := lit " " ++ title ++ lit " " in
    let title_text := align_text title_text (total_width t) (title_align self) in
    [TL g ++ times (H g) (total_width t) ++ TR g;
     V g ++ title_text ++ V g;
     make_separator (H g) (spaced_cols t) (ML g) (TM g) (MR g)]
  end.

(** The vertical padding of one cell: [spaced]. *)
Definition spaced_cell (valign : VAlign) (max_height : Z) (col : Cell) : Cell :=
  let delta := max_height - len col in
  match valign with
  | TOP => col ++ times [[]] delta
  | BOTTOM => times [[]] delta ++ col
  | MIDDLE =>
    let top_space := delta / 2 in
    let bottom_space := delta - top_space in
    times [[]] top_space ++ col ++ times [[]] bottom_space
  end.

(** One text line of a row: the loop over [enumerate(spaced_cells)]. *)
Definition row_line (self : CSV2TXT) (t : Layout) (spaced_cells : list Cell)
    (line : nat) : result str :=
  parts <- list_comp
    (λ ci_cell : nat * Cell,
       let '(ci, cell) := ci_cell in
       text <- index cell line;;
       width <- index (cols_width t) ci;;
       let content := align_cell self text width ci in
       Ok (times [SP] (spacing self) ++ content ++ times [SP] (spacing self)))
    (enumerate spaced_cells);;
  Ok (V (glyphs t) ++ join (V (glyphs t)) parts ++ V (glyphs t)).

(** The body of the loop over [enumerate(cells)]. *)
Definition row_lines (self : CSV2TXT) (t : Layout) (lines : list str)
    (ri_row : nat * list Cell) : result (list str) :=
  let '(ri, row) := ri_row in
  let rows_height := len <$> row in
  max_height <- py_max rows_height;;
  let spaced_cells := spaced_cell (valign self) max_height <$> row in
  block <- list_comp (row_line self t spaced_cells) (range max_height);;
  Ok (lines ++ block ++
      (if Z.of_nat ri <? len (cells t) - 1 then [middle t] else [])).

(** [generate] from the parsed rows on. *)
Definition render (self : CSV2TXT) (rows : list (list (option str)))
    (title : option str) : result str :=
  match rows with
  | [] => Ok []
  | _ :: _ =>
    t <- layout self rows;;
    lines <- for_each (row_lines self t) (head_lines self t title) (enumerate (cells t));;
    Ok (join [LF] (lines ++ [bottom t]))
  end.

Definition generate (self : CSV2TXT) (input : list str) (title : option str)
    : result str :=
  rows <- get_rows self input;;
  render self ((λ row : list str, Some <$> row) <$> rows) title.

(** [CSV2TXT(border_symbols = '- | + + + + + + + + +')]: the defaults with
    ASCII glyphs. *)
Definition ascii_config : CSV2TXT :=
  post_init
    {| border_symbols := lit "- | + + + + + + + + +";
       spacing := 1;
       separator := 44%N;
       max_width := None;
       align := None;
       valign := MIDDLE;
       title_align := CENTER |}.

(** A configuration with another [max_width] (the field is mutable). *)
Definition with_max_width (self : CSV2TXT) (width : option Z) : CSV2TXT :=
  {| border_symbols := border_symbols self;
     spacing := spacing self;
     separator := separator self;
     max_width := width;
     align := align self;
     valign := valign self;
     title_align := title_align self |}.


(** The values of [max_width] that [textwrap.wrap] is not asked to reject:
    none, 0 (no wrapping), or a positive width. *)
Definition width_accepted (self : CSV2TXT) : Prop :=
  match max_width self with
  | Some width => 0 ≤ width
  | None => True
  end.

(** *** Lines whose fields are written out

    A cell is given by its pieces, the texts between its escaped
    separators; a line by its cells. *)

Definition UNDERSCORE : char := 95%N.

(** Separators that are neither special for [csv.reader] with this dialect
    (quote, line ends, the skipped space), nor the backslash, nor a
    character of the placeholder. *)
Definition ordinary_separator (sep : char) : Prop :=
  (sep ∉ [DQUOTE; CR; LF; SP; BACKSLASH]) ∧ (sep ∉ com).





(** Characters that [csv.reader] adds to an unquoted field. *)
Definition field_char (sep c : char) : Prop := c ∉ [sep; DQUOTE; CR; LF].

(** A field read as it is: its characters are added one by one, it does not
    start with a space, and it fits in the field size limit. *)
Definition plain_field (sep : char) (f : str) : Prop :=
  Forall (field_char sep) f ∧
  (match f with c :: _ => c ≠ SP | [] => True end) ∧
  len f ≤ Csv.field_limit.

(** The reader after a field has been read from its start. *)
Definition after_field (f : str) (fds : list str) : Csv.Reader :=
  match f with
  | [] => {| Csv.state := Csv.START_FIELD; Csv.field := []; Csv.fields := fds |}
  | _ :: _ => {| Csv.state := Csv.IN_FIELD; Csv.field := reverse f; Csv.fields := fds |}
  end.

(** A field written between double quotes. *)
Definition quoted (q : str) : str := DQUOTE :: q ++ [DQUOTE].

(** The text of a quoted field that is read as it is: no quote inside, no
    backslash and no underscore (so neither an escaped separator nor the
    placeholder), and within the field size limit. *)
Definition quotable (q : str) : Prop :=
  Forall (λ c, c ∉ [DQUOTE; BACKSLASH; UNDERSCORE]) q ∧ len q ≤ Csv.field_limit.

(** * Properties *)

(** ** Exceptions and loops *)

Lemma bind_Ok {A B} (m : result A) (f : A → result B) (b : B) :
  (x <- m;; f x) = Ok b → ∃ a, m = Ok a ∧ f a = Ok b.
Proof. destruct m as [a|e]; simpl; [eauto | discriminate]. Qed.

Ltac inv_bind H :=
  let a := fresh "a" in
  let Ha := fresh "Ha" in
  apply bind_Ok in H; destruct H as (a & Ha & H).

Lemma list_comp_Ok {A B} (f : A → result B) (l : list A) (k : list B) :
  list_comp f l = Ok k ↔ Forall2 (λ x y, f x = Ok y) l k.
Proof.
  split.
  - revert k. induction l as [|x l IH]; intros k Hk; simpl in Hk.
    + injection Hk as <-. constructor.
    + inv_bind Hk. inv_bind Hk. injection Hk as <-. constructor; auto.
  - induction 1 as [|x y l k Hxy _ IH]; simpl; [done|].
    rewrite Hxy. simpl. rewrite IH. done.
Qed.

Lemma list_comp_total {A B} (f : A → result B) (l : list A) :
  Forall (λ x, ∃ y, f x = Ok y) l → ∃ k, list_comp f l = Ok k.
Proof.
  induction 1 as [|x l [y Hy] _ [k Hk]]; simpl; [eauto|].
  rewrite Hy. simpl. rewrite Hk. simpl. eauto.
Qed.

Lemma list_comp_length {A B} (f : A → result B) (l : list A) (k : list B) :
  list_comp f l = Ok k → length k = length l.
Proof. intros Hk%list_comp_Ok. symmetry. by eapply Forall2_length. Qed.

(** A loop that appends to its accumulator keeps what it started with. *)
Lemma for_each_append {A B} (body : list B → A → result (list B)) (l : list A) :
  (∀ acc x acc', body acc x = Ok acc' → ∃ new, acc' = acc ++ new) →
  ∀ acc out, for_each body acc l = Ok out → ∃ new, out = acc ++ new.
Proof.
  intros Hbody. induction l as [|x l IH]; intros acc out Hout; simpl in Hout.
  - injection Hout as <-. exists []. by rewrite app_nil_r.
  - inv_bind Hout. apply Hbody in Ha as [new ->].
    apply IH in Hout as [new' ->]. exists (new ++ new'). by rewrite app_assoc.
Qed.

Lemma len_app {A} (l k : list A) : len (l ++ k) = len l + len k.
Proof. unfold len. rewrite length_app. lia. Qed.

Lemma len_nonneg {A} (l : list A) : 0 ≤ len l.
Proof. unfold len. lia. Qed.

Lemma times_singleton {A} (x : A) (n : Z) : times [x] n = replicate (Z.to_nat n) x.
Proof.
  unfold times. induction (Z.to_nat n) as [|k IH]; simpl; [done|]. by rewrite IH.
Qed.

Lemma len_times {A} (s : list A) (n : Z) : 0 ≤ n → len (times s n) = n * len s.
Proof.
  intros Hn. unfold times, len.
  rewrite <- (Z2Nat.id n) at 2 by done.
  induction (Z.to_nat n) as [|k IH]; simpl; [lia|].
  rewrite length_app. lia.
Qed.

Lemma or_else_nonempty {A} (l d : list A) : d ≠ [] → or_else l d ≠ [].
Proof. by destruct l. Qed.

(** ** [max] and [sum] *)

Lemma foldl_max_ge (l : list Z) (x : Z) :
  x ≤ foldl Z.max x l ∧ Forall (λ y, y ≤ foldl Z.max x l) l.
Proof.
  revert x. induction l as [|y l IH]; intros x; simpl; [split; [lia|constructor]|].
  destruct (IH (Z.max x y)) as [H1 H2]. split; [lia|]. constructor; [lia|done].
Qed.

Lemma foldl_max_in (l : list Z) (x : Z) :
  foldl Z.max x l = x ∨ foldl Z.max x l ∈ l.
Proof.
  revert x. induction l as [|y l IH]; intros x; simpl; [by left|].
  destruct (IH (Z.max x y)) as [H|H].
  - rewrite H. destruct (Z.max_spec x y) as [[_ ->]|[_ ->]]; [right; left | by left].
  - right. by right.
Qed.

Lemma py_max_Ok (l : list Z) (m : Z) :
  py_max l = Ok m → m ∈ l ∧ Forall (λ y, y ≤ m) l.
Proof.
  destruct l as [|x l]; simpl; [discriminate|]. intros [= <-].
  destruct (foldl_max_ge l x) as [H1 H2]. split.
  - destruct (foldl_max_in l x) as [->|H]; [left | by right].
  - by constructor.
Qed.

Lemma py_max_total (l : list Z) : l ≠ [] → ∃ m, py_max l = Ok m.
Proof. destruct l; [done|]. simpl. eauto. Qed.

Lemma py_sum_cons (x : Z) (l : list Z) : py_sum (x :: l) = x + py_sum l.
Proof.
  unfold py_sum. simpl.
  assert (∀ k a b, foldl Z.add (a + b) k = a + foldl Z.add b k) as Hshift.
  { induction k as [|y k IH]; intros a b; simpl; [done|].
    rewrite <- IH. f_equal. lia. }
  rewrite <- Hshift. f_equal. lia.
Qed.

(** ** The table of a small input *)

Example generate_table :
  generate ascii_config [lit "a,bb"; lit "ccc,d"] None =
  Ok (join [LF]
        [lit "+-----+----+";
         lit "| a   | bb |";
         lit "+-----+----+";
         lit "| ccc | d  |";
         lit "+-----+----+"]).
Proof. reflexivity. Qed.

Example generate_titled_table :
  generate ascii_config [lit "line1\nline2\nline3,short"; lit "x"] (Some (lit "T")) =
  Ok (join [LF]
        [lit "+---------------+";
         lit "|       T       |";
         lit "+-------+-------+";
         lit "| line1 |       |";
         lit "| line2 | short |";
         lit "| line3 |       |";
         lit "+-------+-------+";
         lit "| x     |       |";
         lit "+-------+-------+"]).
Proof. reflexivity. Qed.

(** ** No rows *)

(** C9: when the parsed input has no rows, [generate] returns the empty
    string, whatever the configuration and the title; nothing is raised and
    no border or title line is produced. *)
Theorem generate_no_rows (self : CSV2TXT) (input : list str) (title : option str) :
  get_rows self input = Ok [] →
  generate self input title = Ok [] ∧ render self [] title = Ok [].
Proof.
  intros Hrows. unfold generate. rewrite Hrows. done.
Qed.

Lemma generate_no_rows_witness :
  get_rows default_config [] = Ok [] ∧
  generate default_config [] (Some (lit "Report")) = Ok [] ∧
  render default_config [] (Some (lit "Report")) = Ok [].
Proof.
  split; [reflexivity|].
  apply (generate_no_rows default_config [] (Some (lit "Report"))). reflexivity.
Defined.

(** ** Vertical alignment *)

Lemma len_spaced_cell (valign : VAlign) (max_height : Z) (col : Cell) :
  len col ≤ max_height → len (spaced_cell valign max_height col) = max_height.
Proof.
  intros Hle. unfold spaced_cell.
  assert (0 ≤ (max_height - len col) / 2) as Hhalf by (apply Z.div_pos; lia).
  pose proof (Z.div_mod (max_height - len col) 2 ltac:(lia)) as Hdiv.
  pose proof (Z.mod_pos_bound (max_height - len col) 2 ltac:(lia)) as Hmod.
  destruct valign; rewrite !len_app, !len_times by lia; unfold len; simpl; lia.
Qed.

(** C6: in a row of height [max_height], a cell with
    [delta = max_height - len(cell)] gets, for MIDDLE, [delta // 2] empty
    lines before it and [delta - delta // 2] after it (the odd one below);
    for TOP, [delta] empty lines after it; for BOTTOM, [delta] before it.
    Each padded cell has the height of the row. *)
Theorem spaced_cell_padding (row : list Cell) (col : Cell) (max_height : Z) :
  col ∈ row →
  py_max (len <$> row) = Ok max_height →
  let delta := max_height - len col in
  0 ≤ delta ∧
  spaced_cell MIDDLE max_height col =
    replicate (Z.to_nat (delta / 2)) [] ++ col ++
    replicate (Z.to_nat (delta - delta / 2)) [] ∧
  delta / 2 ≤ delta - delta / 2 ≤ delta / 2 + 1 ∧
  spaced_cell TOP max_height col = col ++ replicate (Z.to_nat delta) [] ∧
  spaced_cell BOTTOM max_height col = replicate (Z.to_nat delta) [] ++ col ∧
  ∀ valign, len (spaced_cell valign max_height col) = max_height.
Proof.
  intros Hin Hmax delta.
  assert (0 ≤ delta) as Hdelta.
  { apply py_max_Ok in Hmax as [_ Hall]. rewrite Forall_forall in Hall.
    specialize (Hall (len col)). unfold delta.
    assert (len col ∈ len <$> row) as Hmem by (by apply list_elem_of_fmap_2).
    specialize (Hall Hmem). lia. }
  assert (0 ≤ delta / 2) as Hhalf by (apply Z.div_pos; lia).
  assert (delta / 2 ≤ delta - delta / 2 ≤ delta / 2 + 1) as Hsplit.
  { pose proof (Z.div_mod delta 2 ltac:(lia)).
    pose proof (Z.mod_pos_bound delta 2 ltac:(lia)). lia. }
  split; [done|]. split; [|split; [done|]].
  { unfold spaced_cell. fold delta. by rewrite !times_singleton. }
  split; [|split].
  - unfold spaced_cell. fold delta. by rewrite times_singleton.
  - unfold spaced_cell. fold delta. by rewrite times_singleton.
  - intros valign. apply len_spaced_cell. subst delta. lia.
Qed.

Lemma spaced_cell_padding_witness :
  spaced_cell MIDDLE 4 [lit "short"] = [[]; lit "short"; []; []] ∧
  len (spaced_cell BOTTOM 4 [lit "short"]) = 4.
Proof.
  assert ([lit "short"] ∈ [[lit "l1"; lit "l2"; lit "l3"; lit "l4"]; [lit "short"]])
    as Hin by (right; left).
  assert (py_max (len <$> [[lit "l1"; lit "l2"; lit "l3"; lit "l4"]; [lit "short"]])
          = Ok 4) as Hmax by reflexivity.
  destruct (spaced_cell_padding _ _ _ Hin Hmax) as (_ & Hmid & _ & _ & _ & Hlen).
  split; [exact Hmid | exact (Hlen BOTTOM)].
Defined.

(** ** Wrapping a cell *)

Lemma wrap_Raise (line : str) (width : Z) :
  width ≤ 0 → TextWrap.wrap line width = Raise ValueError.
Proof.
  intros Hw. unfold TextWrap.wrap.
  destruct (Z.leb_spec width 0) as [_|Hgt]; [done|lia].
Qed.

Lemma for_each_no_wrap (self : CSV2TXT) (lines acc : list str) :
  max_width self = None ∨ max_width self = Some 0 →
  for_each (wrap_line_of self) acc lines = Ok (acc ++ lines).
Proof.
  intros Hw. revert acc. induction lines as [|line lines IH]; intros acc; simpl.
  - by rewrite app_nil_r.
  - assert (wrap_line_of self acc line = Ok (acc ++ [line])) as ->.
    { unfold wrap_line_of. by destruct Hw as [-> | ->]. }
    simpl. rewrite IH. by rewrite <- app_assoc.
Qed.

Lemma for_each_wrap (self : CSV2TXT) (width : Z) (lines acc : list str) :
  max_width self = Some width → width ≠ 0 →
  for_each (wrap_line_of self) acc lines =
  (wrapped <- list_comp (λ line, TextWrap.wrap line width) lines;;
   Ok (acc ++ concat wrapped)).
Proof.
  intros Hw Hnz. revert acc. induction lines as [|line lines IH]; intros acc; simpl.
  - by rewrite app_nil_r.
  - unfold wrap_line_of at 1. rewrite Hw.
    destruct (Z.eqb_spec width 0) as [|_]; [done|].
    destruct (TextWrap.wrap line width) as [ws|e]; simpl; [|done].
    rewrite IH. destruct (list_comp _ lines) as [wss|e]; simpl; [|done].
    by rewrite app_assoc.
Qed.

(** C3 (as amended): without [max_width], or with [max_width] 0, [wrap_cell]
    returns the lines of the escaped text as they are (one empty line when
    there is none); with a positive [max_width] every line goes through
    [textwrap.wrap] and the wrapped lines are concatenated; a negative
    [max_width] is handed to [textwrap.wrap] too, which rejects it. *)
Theorem wrap_cell_max_width (self : CSV2TXT) (text : str) :
  let lines := or_else (splitlines (escape self text)) [[]] in
  match max_width self with
  | None => wrap_cell self (Some text) = Ok lines
  | Some width =>
    if width =? 0 then wrap_cell self (Some text) = Ok lines
    else if width <? 0 then wrap_cell self (Some text) = Raise ValueError
    else wrap_cell self (Some text) =
         (wrapped <- list_comp (λ line, TextWrap.wrap line width) lines;;
          Ok (or_else (concat wrapped) [[]]))
  end.
Proof.
  intros lines. unfold wrap_cell. fold lines.
  assert (or_else lines [[]] = lines) as Hlines.
  { subst lines. by destruct (splitlines _). }
  destruct (max_width self) as [width|] eqn:Hw.
  - destruct (Z.eqb_spec width 0) as [->|Hnz].
    + rewrite for_each_no_wrap by auto. simpl. by rewrite Hlines.
    + rewrite (for_each_wrap self width) by done. simpl.
      destruct (Z.ltb_spec width 0) as [Hneg|Hpos].
      * assert (lines ≠ []) as Hne by (subst lines; by apply or_else_nonempty).
        destruct lines as [|line lines']; [done|]. simpl.
        rewrite wrap_Raise by lia. done.
      * by destruct (list_comp _ lines).
  - rewrite for_each_no_wrap by auto. simpl. by rewrite Hlines.
Qed.

(** C3 as stated fails: with [max_width = -1] the cell "a" is not returned
    as the line "a"; [wrap_cell] raises ValueError. *)
Lemma wrap_cell_negative_width_counterexample :
  let self := with_max_width default_config (Some (-1)) in
  max_width self = Some (-1) ∧
  wrap_cell (with_max_width self None) (Some (lit "a")) = Ok [lit "a"] ∧
  wrap_cell self (Some (lit "a")) = Raise ValueError ∧
  wrap_cell self (Some (lit "a")) ≠
    Ok (or_else (splitlines (escape self (lit "a"))) [[]]).
Proof. repeat split; try reflexivity. vm_compute. discriminate. Qed.

(** C4, the code at the failing input: with [max_width = 10] the cell text
    a\n\nb (two escaped line breaks) has three lines after escaping and
    splitting, the middle one empty, but [wrap_cell] returns two lines: the
    empty line is lost, as [textwrap.wrap] returns no line for it.  Without
    [max_width] the three lines are kept. *)
Theorem wrap_cell_drops_blank_line :
  let self := with_max_width default_config (Some 10) in
  let text := lit "a\n\nb" in
  splitlines (escape self text) = [lit "a"; []; lit "b"] ∧
  TextWrap.wrap [] 10 = Ok [] ∧
  wrap_cell self (Some text) = Ok [lit "a"; lit "b"] ∧
  wrap_cell default_config (Some text) = Ok [lit "a"; []; lit "b"].
Proof. repeat split; reflexivity. Qed.

(** ** The placeholder of [get_rows] *)

(** C10: [get_rows] puts [__COMMA__] in place of each escaped separator
    before the lines are tokenized and the separator in place of each
    [__COMMA__] of each cell afterwards; so the line a__COMMA__b, which has
    no escaped separator, is read as the cell a,b. *)
Theorem get_rows_placeholder :
  (∀ (self : CSV2TXT) (input : list str),
     get_rows self input =
     (rows <- Csv.reader
                ((λ line, replace line [BACKSLASH; separator self] com) <$> input)
                (separator self);;
      Ok ((λ row : list str,
             (λ cell, replace cell com [separator self]) <$> row) <$> rows))) ∧
  com = lit "__COMMA__" ∧
  (let line := lit "a__COMMA__b" in
   replace line [BACKSLASH; separator default_config] com = line ∧
   get_rows default_config [line] = Ok [[lit "a,b"]] ∧
   lit "a,b" ≠ line).
Proof.
  split; [reflexivity|]. split; [reflexivity|].
  repeat split; try reflexivity. vm_compute. discriminate.
Qed.

(** ** The grid *)

Lemma extend_row_spec (cols : Z) (row : list Cell) :
  len row ≤ cols →
  extend_row cols row = row ++ replicate (Z.to_nat (cols - len row)) [[]] ∧
  len (extend_row cols row) = cols.
Proof.
  intros Hle. unfold extend_row.
  destruct (Z.ltb_spec (len row) cols) as [Hlt|Hge].
  - rewrite times_singleton. split; [done|].
    unfold len in *. rewrite length_app, length_replicate. lia.
  - replace (cols - len row) with 0 by lia. simpl. rewrite app_nil_r.
    split; [done|lia].
Qed.

Lemma grid_Ok (self : CSV2TXT) (rows : list (list (option str)))
    (cells : list (list Cell)) (cols : Z) :
  grid self rows = Ok (cells, cols) →
  (∀ row, row ∈ rows → len row ≤ cols) ∧
  (∃ row, row ∈ rows ∧ len row = cols) ∧
  Forall (λ row, len row = cols) cells ∧
  Forall2 (λ raw row, ∃ wrapped,
             list_comp (wrap_cell self) raw = Ok wrapped ∧
             row = wrapped ++ replicate (Z.to_nat (cols - len raw)) [[]])
          rows cells.
Proof.
  intros Hgrid. unfold grid in Hgrid.
  apply bind_Ok in Hgrid as (wrapped & Hwrapped & Hgrid).
  apply bind_Ok in Hgrid as (m & Hmax & Hgrid).
  injection Hgrid as <- <-.
  apply py_max_Ok in Hmax as [Hin Hall].
  rewrite Forall_fmap, Forall_forall in Hall.
  apply list_elem_of_fmap in Hin as (row & Hrow & Hin).
  apply list_comp_Ok in Hwrapped.
  assert (Forall2 (λ raw row, ∃ wrapped,
             list_comp (wrap_cell self) raw = Ok wrapped ∧
             row = wrapped ++ replicate (Z.to_nat (m - len raw)) [[]] ∧
             len row = m) rows (extend_row m <$> wrapped)) as Hrows.
  { apply Forall2_fmap_r.
    assert (Forall (λ raw, len raw ≤ m) rows) as Hle
      by (apply Forall_forall; intros raw Hraw; by apply Hall).
    clear Hall Hin Hrow row. revert Hle.
    induction Hwrapped as [|raw w rows' ws Hw _ IH]; intros Hle; [constructor|].
    inversion Hle as [|? ? Hraw Hle']; subst.
    constructor; [|by apply IH].
    exists w. split; [done|].
    assert (len w = len raw) as Hlen
      by (unfold len; f_equal; by eapply list_comp_length).
    destruct (extend_row_spec m w) as [Hext Hcols]; [by rewrite Hlen|].
    rewrite Hcols, Hext, Hlen. done. }
  repeat split.
  - intros raw Hraw. by apply Hall.
  - exists row. by split.
  - clear -Hrows. induction Hrows as [|? ? ? ? (w & _ & _ & Hlen) _ IH]; by constructor.
  - eapply Forall2_impl; [exact Hrows|]. intros raw r (w & ? & ? & _). eauto.
Qed.

(** C1: for an input with at least one row, every row of the grid has
    [cols] cells, [cols] being the greatest length of a raw row, and a row
    is its wrapped cells followed by cells of one empty line. *)
Theorem grid_rectangular (self : CSV2TXT) (rows : list (list (option str)))
    (cells : list (list Cell)) (cols : Z) :
  rows ≠ [] →
  grid self rows = Ok (cells, cols) →
  (∀ row, row ∈ rows → len row ≤ cols) ∧
  (∃ row, row ∈ rows ∧ len row = cols) ∧
  Forall (λ row, len row = cols) cells ∧
  Forall2 (λ raw row, ∃ wrapped,
             list_comp (wrap_cell self) raw = Ok wrapped ∧
             row = wrapped ++ replicate (Z.to_nat (cols - len raw)) [[]])
          rows cells.
Proof. intros _. apply grid_Ok. Qed.

Lemma grid_rectangular_witness :
  ∃ cells,
    grid default_config [[Some (lit "a")]; [Some (lit "b"); None; Some (lit "c")]]
      = Ok (cells, 3) ∧
    Forall (λ row, len row = 3) cells.
Proof.
  eexists. split; [reflexivity|].
  refine (proj1 (proj2 (proj2 (grid_rectangular default_config
    [[Some (lit "a")]; [Some (lit "b"); None; Some (lit "c")]] _ 3 _ _)))).
  - discriminate.
  - reflexivity.
Defined.

(** ** Separator lines *)

Lemma for_each_invariant {A S} (P : S → Prop) (body : S → A → result S) (l : list A) :
  (∀ acc x acc', P acc → x ∈ l → body acc x = Ok acc' → P acc') →
  ∀ acc out, P acc → for_each body acc l = Ok out → P out.
Proof.
  induction l as [|x l IH]; intros Hbody acc out Hacc Hout; simpl in Hout.
  - by injection Hout as <-.
  - apply bind_Ok in Hout as (acc' & Hacc' & Hout).
    eapply (IH (λ a y a' Ha Hy, Hbody a y a' Ha (list_elem_of_further _ _ _ Hy)));
      [|exact Hout].
    eapply Hbody; [exact Hacc|left|exact Hacc'].
Qed.

Lemma len_join (sep : str) (parts : list str) :
  parts ≠ [] →
  len (join sep parts) = py_sum (len <$> parts) + (len parts - 1) * len sep.
Proof.
  induction parts as [|p parts IH]; [done|]. intros _.
  destruct parts as [|q parts].
  - simpl. rewrite py_sum_cons. change (len [p]) with 1. unfold py_sum. simpl. lia.
  - change (join sep (p :: q :: parts)) with (p ++ sep ++ join sep (q :: parts)).
    rewrite !len_app, IH by done.
    rewrite !fmap_cons, !py_sum_cons.
    assert (len (p :: q :: parts) = len (q :: parts) + 1) as ->
      by (unfold len; simpl length; lia).
    lia.
Qed.

Lemma col_width_nonneg (cells : list (list Cell)) (col : nat) (w : Z) :
  col_width cells col = Ok w → 0 ≤ w.
Proof.
  unfold col_width. intros Hw.
  apply bind_Ok in Hw as (lens & Hlens & Hmax).
  apply py_max_Ok in Hmax as [Hin _].
  assert (Forall (λ n, 0 ≤ n) lens) as Hall.
  { eapply (for_each_invariant (Forall (λ n, 0 ≤ n))); [|constructor|exact Hlens].
    intros acc row acc' Hacc _ Hbody. simpl in Hbody.
    apply bind_Ok in Hbody as (cell & _ & Hbody). injection Hbody as <-.
    apply Forall_app. split; [done|]. apply Forall_fmap, Forall_forall.
    intros line _. apply len_nonneg. }
  rewrite Forall_forall in Hall. by apply Hall.
Qed.

(** The length of a separator line over columns of non-negative widths. *)
Lemma len_make_separator (h left center right : str) (widths : list Z) :
  widths ≠ [] →
  Forall (λ w, 0 ≤ w) widths →
  len h = 1 → len left = 1 → len center = 1 → len right = 1 →
  len (make_separator h widths left center right) = total_width_of widths + 2.
Proof.
  intros Hne Hpos Hh Hl Hc Hr. unfold make_separator, total_width_of.
  rewrite !len_app, len_join by (by destruct widths).
  rewrite Hl, Hc, Hr.
  assert (len ((λ w, times h w) <$> widths) = len widths) as ->
    by (unfold len; by rewrite length_fmap).
  assert (py_sum (len <$> ((λ w, times h w) <$> widths)) = py_sum widths) as ->; [|lia].
  clear Hne. induction Hpos as [|w widths Hw _ IH]; [done|].
  rewrite !fmap_cons, !py_sum_cons, IH, len_times, Hh by done. lia.
Qed.

Lemma layout_Ok (self : CSV2TXT) (rows : list (list (option str))) (t : Layout) :
  layout self rows = Ok t →
  ∃ cols g,
    grid self rows = Ok (cells t, cols) ∧
    list_comp (col_width (cells t)) (range cols) = Ok (cols_width t) ∧
    spaced_cols t = spaced_width self <$> cols_width t ∧
    total_width t = total_width_of (spaced_cols t) ∧
    unpack (split (border_symbols self)) = Ok g ∧
    glyphs t = g ∧
    top t = make_separator (H g) (spaced_cols t) (TL g) (TM g) (TR g) ∧
    middle t = make_separator (H g) (spaced_cols t) (ML g) (MM g) (MR g) ∧
    bottom t = make_separator (H g) (spaced_cols t) (BL g) (BM g) (BR g).
Proof.
  unfold layout. intros Ht.
  apply bind_Ok in Ht as ([cs cols] & Hgrid & Ht).
  apply bind_Ok in Ht as (ws & Hws & Ht).
  apply bind_Ok in Ht as (g & Hg & Ht).
  injection Ht as <-. simpl. exists cols, g. by repeat split.
Qed.

(** C2 (as amended): for a configuration as constructed (spacing clamped
    to 0 or more), when the eleven glyphs are single characters and the grid
    has at least one column, the top, middle and bottom lines have the same
    length [total_width + 2], where [total_width] is the sum over the
    columns of (content width + 2 * spacing), plus (columns - 1). *)
Theorem separators_length (self : CSV2TXT) (rows : list (list (option str)))
    (t : Layout) :
  layout (post_init self) rows = Ok t →
  (∃ row, row ∈ rows ∧ row ≠ []) →
  Forall (λ s : str, len s = 1)
    [H (glyphs t); V (glyphs t); TL (glyphs t); TM (glyphs t); TR (glyphs t);
     ML (glyphs t); MM (glyphs t); MR (glyphs t); BL (glyphs t); BM (glyphs t);
     BR (glyphs t)] →
  total_width t =
    py_sum ((λ w, w + spacing (post_init self) * 2) <$> cols_width t) +
    (len (cols_width t) - 1) ∧
  top t = make_separator (H (glyphs t)) (spaced_cols t)
            (TL (glyphs t)) (TM (glyphs t)) (TR (glyphs t)) ∧
  middle t = make_separator (H (glyphs t)) (spaced_cols t)
               (ML (glyphs t)) (MM (glyphs t)) (MR (glyphs t)) ∧
  bottom t = make_separator (H (glyphs t)) (spaced_cols t)
               (BL (glyphs t)) (BM (glyphs t)) (BR (glyphs t)) ∧
  len (top t) = total_width t + 2 ∧
  len (middle t) = total_width t + 2 ∧
  len (bottom t) = total_width t + 2.
Proof.
  intros Ht (row & Hrow & Hne) Hglyphs.
  apply layout_Ok in Ht
    as (cols & g & Hgrid & Hws & Hspaced & Htotal & _ & <- & Htop & Hmid & Hbot).
  destruct (grid_Ok _ _ _ _ Hgrid) as (Hle & _).
  assert (1 ≤ cols) as Hcols.
  { specialize (Hle row Hrow). destruct row; [done|]. unfold len in Hle.
    simpl in Hle. lia. }
  assert (spaced_cols t ≠ []) as Hnonempty.
  { rewrite Hspaced. apply list_comp_length in Hws.
    unfold range in Hws. rewrite length_seq in Hws.
    destruct (cols_width t); [simpl in Hws; lia|done]. }
  assert (Forall (λ w, 0 ≤ w) (spaced_cols t)) as Hpos.
  { rewrite Hspaced. apply Forall_fmap, Forall_forall. intros w Hw.
    apply list_comp_Ok in Hws.
    apply list_elem_of_lookup in Hw as [i Hi].
    destruct (Forall2_lookup_r _ _ _ _ _ Hws Hi) as (col & _ & Hcol).
    apply col_width_nonneg in Hcol. unfold spaced_width. simpl. lia. }
  repeat apply Forall_cons_1 in Hglyphs as [? Hglyphs].
  split; [|split; [done|split; [done|split; [done|]]]].
  - rewrite Htotal, Hspaced. unfold total_width_of. f_equal.
    unfold len. by rewrite length_fmap.
  - rewrite Htop, Hmid, Hbot, Htotal. by rewrite !len_make_separator.
Qed.

Lemma separators_length_witness :
  ∃ t, layout default_config [[Some (lit "a"); Some (lit "bb")]] = Ok t ∧
       total_width t = 8 ∧ len (top t) = 10.
Proof.
  eexists. split; [reflexivity|].
  pose proof (separators_length default_config
                [[Some (lit "a"); Some (lit "bb")]] _ eq_refl) as Hlen.
  destruct Hlen as (_ & _ & _ & _ & Htop & _).
  - eexists. split; [left|discriminate].
  - repeat constructor.
  - split; [reflexivity|exact Htop].
Defined.

(** C2 as stated fails for a grid without columns: for the single row [[]]
    (a blank input line) and the default glyphs, each one character, the
    top line is the two corner glyphs, of length 2, while
    [total_width + 2 = 1]. *)
Lemma separators_length_no_column_counterexample :
  ∃ t, layout default_config [[]] = Ok t ∧
       Forall (λ s : str, len s = 1)
         [H (glyphs t); V (glyphs t); TL (glyphs t); TM (glyphs t); TR (glyphs t);
          ML (glyphs t); MM (glyphs t); MR (glyphs t); BL (glyphs t); BM (glyphs t);
          BR (glyphs t)] ∧
       top t = TL (glyphs t) ++ TR (glyphs t) ∧
       total_width t = -1 ∧
       len (top t) ≠ total_width t + 2.
Proof.
  eexists. split; [reflexivity|]. split; [repeat constructor|].
  split; [reflexivity|]. split; [reflexivity|]. vm_compute. discriminate.
Qed.

(** ** The title block *)

Lemma join_cons (sep p : str) (ps : list str) :
  ps ≠ [] → join sep (p :: ps) = p ++ sep ++ join sep ps.
Proof. by destruct ps. Qed.

Lemma row_lines_append (self : CSV2TXT) (t : Layout) (lines : list str)
    (ri_row : nat * list Cell) (out : list str) :
  row_lines self t lines ri_row = Ok out → ∃ new, out = lines ++ new.
Proof.
  destruct ri_row as [ri row]. unfold row_lines. intros Hout.
  apply bind_Ok in Hout as (max_height & _ & Hout).
  apply bind_Ok in Hout as (block & _ & Hout).
  injection Hout as <-. eauto.
Qed.

(** C7: for an input with rows and a title that is not empty, the output
    is three lines followed by the rest of the table: the full-width border
    [TL + H * total_width + TR], then [V + title_text + V] with the title
    between two spaces aligned to [total_width] by [title_align], then
    [make_separator(ML, TM, MR)]; without a title (absent or empty) the
    output starts with [make_separator(TL, TM, TR)]. *)
Theorem title_block (self : CSV2TXT) (rows : list (list (option str)))
    (title : option str) (out : str) :
  rows ≠ [] →
  render self rows title = Ok out →
  ∃ t rest,
    layout self rows = Ok t ∧
    let g := glyphs t in
    match title with
    | Some (c :: title') =>
      out = (TL g ++ times (H g) (total_width t) ++ TR g) ++ [LF] ++
            (V g ++
             align_text (lit " " ++ (c :: title') ++ lit " ") (total_width t)
               (title_align self) ++
             V g) ++ [LF] ++
            make_separator (H g) (spaced_cols t) (ML g) (TM g) (MR g) ++ [LF] ++
            rest
    | _ =>
      out = make_separator (H g) (spaced_cols t) (TL g) (TM g) (TR g) ++ [LF] ++ rest
    end.
Proof.
  intros Hrows Hout. destruct rows as [|row rows]; [done|]. unfold render in Hout.
  apply bind_Ok in Hout as (t & Ht & Hout).
  apply bind_Ok in Hout as (lines & Hlines & Hout).
  injection Hout as <-.
  apply (for_each_append _ _ (row_lines_append self t)) in Hlines as [body ->].
  exists t, (join [LF] (body ++ [bottom t])). split; [done|].
  assert (body ++ [bottom t] ≠ []) as Hbody by (by destruct body).
  apply layout_Ok in Ht as (_ & g & _ & _ & _ & _ & _ & <- & Htop & _).
  cbv zeta.
  destruct title as [[|c title']|]; simpl head_lines; rewrite <- ?app_assoc; simpl app.
  - rewrite join_cons by done. by rewrite Htop.
  - rewrite !join_cons by done. by rewrite <- !app_assoc.
  - rewrite join_cons by done. by rewrite Htop.
Qed.

Lemma title_block_witness :
  ∃ out, render default_config [[Some (lit "x")]] (Some (lit "Report")) = Ok out ∧
  ∃ t rest,
    layout default_config [[Some (lit "x")]] = Ok t ∧
    out = (TL (glyphs t) ++ times (H (glyphs t)) (total_width t) ++ TR (glyphs t)) ++
          [LF] ++
          (V (glyphs t) ++
           align_text (lit " Report ") (total_width t) CENTER ++
           V (glyphs t)) ++ [LF] ++
          make_separator (H (glyphs t)) (spaced_cols t) (ML (glyphs t))
            (TM (glyphs t)) (MR (glyphs t)) ++ [LF] ++
          rest.
Proof.
  eexists. split; [reflexivity|].
  refine (title_block default_config [[Some (lit "x")]] (Some (lit "Report")) _ _ _).
  - discriminate.
  - reflexivity.
Defined.

(** ** [textwrap.wrap] returns for a positive width *)

Lemma weight_cons (c : str) (cs : list str) :
  TextWrap.weight (c :: cs) = S (length c + TextWrap.weight cs).
Proof. unfold TextWrap.weight. simpl. rewrite length_app. lia. Qed.

Lemma weight_app (a b : list str) :
  TextWrap.weight (a ++ b) = (TextWrap.weight a + TextWrap.weight b)%nat.
Proof.
  induction a as [|c a IH]; [done|].
  simpl app. rewrite !weight_cons, IH. lia.
Qed.

(** The chunks left by [fill_line] are a suffix of its chunks; when none
    was taken the length of the line is unchanged and the next chunk does
    not fit. *)
Lemma fill_line_spec (width : Z) (chunks cur_line : list str) (cur_len : Z)
    (cur_line' chunks' : list str) (cur_len' : Z) :
  TextWrap.fill_line width cur_line cur_len chunks = (cur_line', cur_len', chunks') →
  ∃ taken, chunks = taken ++ chunks' ∧
    (taken = [] → cur_len' = cur_len ∧
       match chunks' with c :: _ => width < cur_len + len c | [] => True end).
Proof.
  revert cur_line cur_len.
  induction chunks as [|chunk chunks IH]; intros cur_line cur_len Hfill; simpl in Hfill.
  - injection Hfill as <- <- <-. by exists [].
  - destruct (Z.leb_spec (cur_len + len chunk) width) as [Hfit|Hlong].
    + apply IH in Hfill as (taken & -> & _). by exists (chunk :: taken).
    + injection Hfill as <- <- <-. by exists [].
Qed.

Lemma handle_long_word_weight (chunks cur_line : list str) (cur_len width : Z)
    (chunks' cur_line' : list str) :
  TextWrap.handle_long_word chunks cur_line cur_len width = (chunks', cur_line') →
  (TextWrap.weight chunks' ≤ TextWrap.weight chunks)%nat ∧
  (1 ≤ width → cur_len = 0 →
   match chunks with c :: _ => c ≠ [] | [] => False end →
   (TextWrap.weight chunks' < TextWrap.weight chunks)%nat).
Proof.
  destruct chunks as [|chunk rest]; unfold TextWrap.handle_long_word.
  - intros [= <- <-]. split; [lia|by intros].
  - intros [= <- <-].
    match goal with |- context [TextWrap.from chunk ?e] => set (end_ := e) end.
    rewrite !weight_cons. unfold TextWrap.from. rewrite !length_drop.
    split; [lia|].
    intros Hw -> Hne.
    assert (1 ≤ end_) as Hend.
    { subst end_. destruct (Z.ltb_spec width 1) as [|_]; [lia|].
      destruct (_ && _ && _) eqn:Hcond; [|lia].
      apply andb_prop in Hcond as [Hcond _]. apply andb_prop in Hcond as [_ Hhyphen].
      apply Z.ltb_lt in Hhyphen. lia. }
    destruct (Z.ltb_spec end_ 0) as [|_]; [lia|].
    destruct chunk; [done|]. simpl length. lia.
Qed.

(** A round of the loop of [_wrap_chunks] consumes something. *)
Lemma wrap_line_weight (width : Z) (lines chunks lines' chunks' : list str) :
  1 ≤ width →
  chunks ≠ [] →
  TextWrap.wrap_line width lines chunks = (lines', chunks') →
  (TextWrap.weight chunks' < TextWrap.weight chunks)%nat.
Proof.
  intros Hw Hne. unfold TextWrap.wrap_line.
  set (chunks1 := match chunks, lines with
                  | c :: cs, _ :: _ => if isblank c then cs else chunks
                  | _, _ => chunks
                  end).
  assert ((TextWrap.weight chunks1 ≤ TextWrap.weight chunks)%nat ∧
          (chunks1 = chunks ∨ (TextWrap.weight chunks1 < TextWrap.weight chunks)%nat))
    as [Hle1 Hdrop].
  { subst chunks1. destruct chunks as [|c cs]; [done|].
    destruct lines; [split; [lia|by left]|].
    destruct (isblank c); [|split; [lia|by left]].
    rewrite weight_cons. split; [lia|right; lia]. }
  destruct (TextWrap.fill_line width [] 0 chunks1) as [[cur_line cur_len] chunks2] eqn:Hfill.
  apply fill_line_spec in Hfill as (taken & Htaken & Hnone).
  assert (TextWrap.weight chunks1 = (TextWrap.weight taken + TextWrap.weight chunks2)%nat)
    as Hsplit by (by rewrite Htaken, weight_app).
  destruct chunks2 as [|c rest].
  - intros [= _ <-].
    destruct Hdrop as [Heq|Hlt]; [|unfold TextWrap.weight at 1; simpl; lia].
    destruct taken as [|tk taken']; [by rewrite app_nil_r, Heq in Htaken|].
    rewrite weight_cons in Hsplit. unfold TextWrap.weight at 1. simpl. lia.
  - destruct (Z.ltb_spec width (len c)) as [Hlong|Hshort].
    + destruct (TextWrap.handle_long_word (c :: rest) cur_line cur_len width)
        as [chunks3 cur_line3] eqn:Hlong_word.
      apply handle_long_word_weight in Hlong_word as [Hle3 Hlt3].
      intros [= _ <-].
      destruct Hdrop as [Heq|Hlt]; [|lia].
      destruct taken as [|tk taken'].
      * destruct (Hnone eq_refl) as [-> _].
        assert (c ≠ []) as Hc by (intros ->; unfold len in Hlong; simpl in Hlong; lia).
        specialize (Hlt3 Hw eq_refl Hc). lia.
      * rewrite weight_cons in Hsplit. lia.
    + intros [= _ <-].
      destruct Hdrop as [Heq|Hlt]; [|lia].
      destruct taken as [|tk taken'].
      * destruct (Hnone eq_refl) as [_ Hnofit]. lia.
      * rewrite weight_cons in Hsplit. lia.
Qed.

Lemma wrap_chunks_total (fuel : nat) (width : Z) (lines chunks : list str) :
  1 ≤ width →
  (TextWrap.weight chunks ≤ fuel)%nat →
  ∃ out, TextWrap.wrap_chunks fuel width lines chunks = Ok out.
Proof.
  intros Hw. revert lines chunks.
  induction fuel as [|fuel IH]; intros lines chunks Hfuel.
  - destruct chunks as [|c cs]; [simpl; eauto|]. rewrite weight_cons in Hfuel. lia.
  - destruct chunks as [|c cs]; [simpl; eauto|].
    simpl. destruct (TextWrap.wrap_line width lines (c :: cs)) as [lines' chunks'] eqn:Hline.
    apply wrap_line_weight in Hline; [|done|done].
    apply IH. lia.
Qed.

Lemma wrap_total (text : str) (width : Z) :
  0 < width → ∃ lines, TextWrap.wrap text width = Ok lines.
Proof.
  intros Hw. unfold TextWrap.wrap.
  destruct (Z.leb_spec width 0) as [|_]; [lia|].
  apply wrap_chunks_total; lia.
Qed.

(** ** The pipeline raises nothing *)

Lemma for_each_cons {A S} (body : S → A → result S) (acc : S) (x : A) (l : list A) :
  for_each body acc (x :: l) = (acc' <- body acc x;; for_each body acc' l).
Proof. reflexivity. Qed.

Lemma for_each_wrap_total (self : CSV2TXT) (lines acc : list str) :
  width_accepted self →
  ∃ wrapped, for_each (wrap_line_of self) acc lines = Ok wrapped.
Proof.
  intros Hw. revert acc. induction lines as [|line lines IH]; intros acc; simpl; [eauto|].
  assert (∃ acc', wrap_line_of self acc line = Ok acc') as [acc' ->].
  { unfold wrap_line_of, width_accepted in *.
    destruct (max_width self) as [width|]; [|eauto].
    destruct (Z.eqb_spec width 0) as [|Hnz]; [eauto|].
    destruct (wrap_total line width) as [ws ->]; [lia|]. simpl. eauto. }
  simpl. apply IH.
Qed.

Lemma wrap_cell_total (self : CSV2TXT) (text : option str) :
  width_accepted self → ∃ lines, wrap_cell self text = Ok lines.
Proof.
  intros Hw. destruct text as [text|]; simpl; [|eauto].
  destruct (for_each_wrap_total self (or_else (splitlines (escape self text)) [[]]) [] Hw)
    as [wrapped ->].
  simpl. eauto.
Qed.

Lemma wrap_cell_nonempty (self : CSV2TXT) (text : option str) (lines : list str) :
  wrap_cell self text = Ok lines → lines ≠ [].
Proof.
  destruct text as [text|]; simpl.
  - intros Hlines. apply bind_Ok in Hlines as (wrapped & _ & Hlines).
    injection Hlines as <-. by apply or_else_nonempty.
  - by intros [= <-].
Qed.

Lemma grid_total (self : CSV2TXT) (rows : list (list (option str))) :
  width_accepted self → rows ≠ [] →
  ∃ cells cols, grid self rows = Ok (cells, cols).
Proof.
  intros Hw Hrows. unfold grid.
  destruct (list_comp_total (list_comp (wrap_cell self)) rows) as [cells ->].
  { apply Forall_forall. intros row _. apply list_comp_total.
    apply Forall_forall. intros text _. by apply wrap_cell_total. }
  simpl. destruct (py_max_total (len <$> rows)) as [cols ->]; [by destruct rows|].
  simpl. eauto.
Qed.

(** Every cell of the grid has at least one line. *)
Lemma grid_cells_nonempty (self : CSV2TXT) (rows : list (list (option str)))
    (cells : list (list Cell)) (cols : Z) :
  grid self rows = Ok (cells, cols) →
  Forall (Forall (λ cell : Cell, cell ≠ [])) cells.
Proof.
  intros Hgrid. destruct (grid_Ok _ _ _ _ Hgrid) as (_ & _ & _ & Hrows).
  clear Hgrid. induction Hrows as [|raw row rows' cells' (w & Hw & ->) _ IH]; constructor; [|done].
  apply Forall_app. split.
  - apply list_comp_Ok in Hw. clear -Hw.
    induction Hw as [|text lines ? ? Hlines _ IH]; constructor; [|done].
    by eapply wrap_cell_nonempty.
  - apply Forall_forall. intros cell ->%elem_of_replicate_inv. done.
Qed.

Lemma index_total {A} (l : list A) (i : nat) :
  (i < length l)%nat → ∃ x, index l i = Ok x ∧ l !! i = Some x.
Proof.
  intros Hi. unfold index. destruct (lookup_lt_is_Some_2 l i Hi) as [x ->]. eauto.
Qed.

Lemma col_width_total (cells : list (list Cell)) (cols : Z) (col : nat) :
  cells ≠ [] →
  Forall (λ row, len row = cols) cells →
  Forall (Forall (λ cell : Cell, cell ≠ [])) cells →
  (Z.of_nat col < cols) →
  ∃ w, col_width cells col = Ok w.
Proof.
  intros Hne Hlen Hcells Hcol. unfold col_width.
  assert (∀ acc, ∃ lens,
            for_each (λ lens row, cell <- index row col;; Ok (lens ++ (len <$> cell)))
              acc cells = Ok lens ∧
            (length acc + length cells ≤ length lens)%nat) as Hloop.
  { clear Hne. induction cells as [|row cells IH]; intros acc; simpl.
    - exists acc. split; [done|lia].
    - apply Forall_cons_1 in Hlen as [Hrow Hlen].
      apply Forall_cons_1 in Hcells as [Hcell Hcells].
      destruct (index_total row col) as (cell & -> & Hlookup);
        [unfold len in Hrow; lia|].
      simpl. destruct (IH Hlen Hcells (acc ++ (len <$> cell))) as (lens & -> & Hlens).
      exists lens. split; [done|].
      rewrite Forall_lookup in Hcell. specialize (Hcell _ _ Hlookup).
      rewrite length_app, length_fmap in Hlens.
      destruct cell; [done|]. simpl in Hlens. simpl. lia. }
  destruct (Hloop []) as (lens & -> & Hlens). simpl.
  apply py_max_total. destruct lens; [|done].
  destruct cells; [done|]. simpl in Hlens. lia.
Qed.

Lemma unpack_total (l : list str) :
  length l = 11%nat → ∃ g, unpack l = Ok g.
Proof.
  intros Hl. do 12 (destruct l as [|? l]; try done). simpl. eauto.
Qed.


Lemma enumerate_lookup {A} (l : list A) (i : nat) (p : nat * A) :
  enumerate l !! i = Some p → p.1 = i ∧ l !! i = Some p.2.
Proof.
  unfold enumerate. intros Hp. apply lookup_zip_with_Some in Hp as (j & x & -> & Hj & Hx).
  apply lookup_seq in Hj as [-> _]. done.
Qed.







(** A row without cells (a blank input line) with no longer row beside it:
    there is no column, and [max(rows_height)] raises ValueError. *)
Lemma render_blank_row_raises :
  render default_config [[]] None = Raise ValueError ∧
  generate default_config [[]] None = Raise ValueError.
Proof. split; reflexivity. Qed.

(** ** Substitutions *)

Lemma startswith_app (old rest : str) : startswith (old ++ rest) old = true.
Proof.
  induction old as [|c old IH]; [done|]. simpl. by rewrite N.eqb_refl, IH.
Qed.

Lemma replace_scan_skip (old new p rest : str) :
  replace_scan old new (length p) (p ++ rest) = replace_scan old new 0 rest.
Proof.
  induction p as [|c p IH]; simpl; [|done].
  by destruct rest.
Qed.

(** A match is replaced. *)
Lemma replace_scan_match (old new rest : str) :
  old ≠ [] →
  replace_scan old new 0 (old ++ rest) = new ++ replace_scan old new 0 rest.
Proof.
  destruct old as [|c old]; [done|]. intros _.
  change ((c :: old) ++ rest) with (c :: (old ++ rest)).
  cbn [replace_scan]. change (c :: (old ++ rest)) with ((c :: old) ++ rest).
  rewrite startswith_app. cbn [length]. rewrite Nat.sub_succ, Nat.sub_0_r.
  by rewrite replace_scan_skip.
Qed.

(** Text without the first character of [old] is passed over. *)
Lemma replace_scan_pass (o : char) (old new seg rest : str) :
  Forall (λ c, c ≠ o) seg →
  replace_scan (o :: old) new 0 (seg ++ rest) =
  seg ++ replace_scan (o :: old) new 0 rest.
Proof.
  induction 1 as [|c seg Hc _ IH]; [done|].
  change ((c :: seg) ++ rest) with (c :: (seg ++ rest)). cbn [replace_scan].
  assert (startswith (c :: seg ++ rest) (o :: old) = false) as ->.
  { simpl. by destruct (N.eqb_spec o c) as [->|_]. }
  by rewrite IH.
Qed.

Lemma replace_scan_nil (old new : str) (skip : nat) : replace_scan old new skip [] = [].
Proof. by destruct skip. Qed.

(** Pieces without the first character of [old], joined by [old], come
    back joined by [new]. *)
Lemma replace_join (o : char) (old new : str) (pieces : list str) (rest : str) :
  Forall (Forall (λ c, c ≠ o)) pieces →
  replace_scan (o :: old) new 0 (join (o :: old) pieces ++ rest) =
  join new pieces ++ replace_scan (o :: old) new 0 rest.
Proof.
  induction 1 as [|p pieces Hp Hpieces IH]; [done|].
  destruct pieces as [|q pieces].
  - simpl. by apply replace_scan_pass.
  - change (join (o :: old) (p :: q :: pieces))
      with (p ++ (o :: old) ++ join (o :: old) (q :: pieces)).
    change (join new (p :: q :: pieces)) with (p ++ new ++ join new (q :: pieces)).
    rewrite <- !app_assoc. rewrite replace_scan_pass by done.
    rewrite replace_scan_match by done. by rewrite IH.
Qed.

(** ** Reading a line of plain fields *)

Lemma for_each_app {A S} (body : S → A → result S) (acc : S) (l k : list A) :
  for_each body acc (l ++ k) = (acc' <- for_each body acc l;; for_each body acc' k).
Proof.
  revert acc. induction l as [|x l IH]; intros acc; simpl; [done|].
  destruct (body acc x); simpl; [apply IH|done].
Qed.

Lemma parse_line_app (sep : char) (r : Csv.Reader) (a b : str) :
  Csv.parse_line sep r (a ++ b) =
  (r' <- for_each (λ self c, Csv.parse_process_char sep self (Some c)) r a;;
   Csv.parse_line sep r' b).
Proof.
  unfold Csv.parse_line. rewrite for_each_app.
  by destruct (for_each _ r a).
Qed.

Lemma parse_line_cons (sep : char) (r : Csv.Reader) (c : char) (b : str) :
  Csv.parse_line sep r (c :: b) =
  (r' <- Csv.parse_process_char sep r (Some c);; Csv.parse_line sep r' b).
Proof.
  unfold Csv.parse_line. simpl.
  by destruct (Csv.parse_process_char sep r (Some c)).
Qed.

Lemma field_char_tests (sep c : char) :
  field_char sep c →
  (c =? sep)%N = false ∧ (c =? DQUOTE)%N = false ∧
  (c =? CR)%N = false ∧ (c =? LF)%N = false.
Proof.
  unfold field_char. rewrite !not_elem_of_cons. intros (H1 & H2 & H3 & H4 & _).
  repeat split; by apply N.eqb_neq.
Qed.

Lemma separator_tests (sep : char) :
  sep ∉ [DQUOTE; CR; LF; SP] →
  (sep =? DQUOTE)%N = false ∧ (sep =? CR)%N = false ∧
  (sep =? LF)%N = false ∧ (sep =? SP)%N = false.
Proof.
  rewrite !not_elem_of_cons. intros (H1 & H2 & H3 & H4 & _).
  repeat split; by apply N.eqb_neq.
Qed.

(** Inside an unquoted field the characters of the field are added. *)
Lemma in_field_run (sep : char) (g fd : str) (fds : list str) :
  Forall (field_char sep) g →
  len fd + len g ≤ Csv.field_limit →
  for_each (λ self c, Csv.parse_process_char sep self (Some c))
    {| Csv.state := Csv.IN_FIELD; Csv.field := fd; Csv.fields := fds |} g =
  Ok {| Csv.state := Csv.IN_FIELD; Csv.field := reverse g ++ fd; Csv.fields := fds |}.
Proof.
  intros Hg. revert fd. induction Hg as [|c g Hc _ IH]; intros fd Hlen; [done|].
  apply field_char_tests in Hc as (Hsep & _ & Hcr & Hlf).
  rewrite for_each_cons. unfold Csv.parse_process_char at 1. simpl.
  rewrite Hsep, Hcr, Hlf. simpl. unfold Csv.parse_add_char. simpl.
  assert (len (c :: g) = len g + 1) as Hcons by (unfold len; simpl length; lia).
  pose proof (len_nonneg g) as Hnonneg.
  destruct (Z.leb_spec Csv.field_limit (len fd)) as [|_]; [lia|]. simpl.
  rewrite IH.
  - by rewrite reverse_cons, <- app_assoc.
  - assert (len (c :: fd) = len fd + 1) as -> by (unfold len; simpl length; lia). lia.
Qed.

Lemma field_run (sep : char) (f : str) (fds : list str) :
  plain_field sep f →
  for_each (λ self c, Csv.parse_process_char sep self (Some c))
    {| Csv.state := Csv.START_FIELD; Csv.field := []; Csv.fields := fds |} f =
  Ok (after_field f fds).
Proof.
  intros (Hchars & Hspace & Hlen). destruct f as [|c f]; [done|].
  apply Forall_cons_1 in Hchars as [Hc Hchars].
  apply field_char_tests in Hc as (Hsep & Hquote & Hcr & Hlf).
  rewrite for_each_cons. unfold Csv.parse_process_char at 1. unfold Csv.start_field.
  simpl. rewrite Hsep, Hquote, Hcr, Hlf. simpl.
  destruct (N.eqb_spec c SP) as [|_]; [done|]. simpl.
  assert (len (c :: f) = len f + 1) as Hcons by (unfold len; simpl length; lia).
  unfold Csv.set_state. simpl.
  rewrite in_field_run; [|done|change (len [c]) with 1; lia].
  by rewrite reverse_cons.
Qed.




Lemma Forall_join (P : char → Prop) (sep : str) (parts : list str) :
  Forall P sep → Forall (Forall P) parts → Forall P (join sep parts).
Proof.
  intros Hsep. induction 1 as [|p parts Hp _ IH]; [constructor|].
  destruct parts as [|q parts]; [done|].
  change (join sep (p :: q :: parts)) with (p ++ sep ++ join sep (q :: parts)).
  by rewrite !Forall_app.
Qed.


(** ** Escaped separators and line breaks *)



Lemma py_sum_nonneg (l : list Z) : Forall (λ n, 0 ≤ n) l → 0 ≤ py_sum l.
Proof.
  induction 1 as [|n l Hn _ IH]; [done|]. rewrite py_sum_cons. lia.
Qed.













(** * Further properties *)

(** ** Horizontal alignment *)

Lemma land_one_mod (a : Z) : Z.land a 1 = a mod 2.
Proof. exact (Z.land_ones a 1 ltac:(lia)). Qed.

Lemma land_one_bounds (a : Z) : 0 ≤ Z.land a 1 ≤ 1.
Proof.
  rewrite land_one_mod. pose proof (Z.mod_pos_bound a 2 ltac:(lia)). lia.
Qed.

Lemma times_nonpos {A} (s : list A) (n : Z) : n ≤ 0 → times s n = [].
Proof. intros Hn. unfold times. by replace (Z.to_nat n) with 0%nat by lia. Qed.

Lemma len_spaces (n : Z) : len (times [SP] n) = Z.max 0 n.
Proof.
  destruct (Z.le_gt_cases n 0) as [Hn|Hn].
  - rewrite times_nonpos by done. unfold len. simpl. lia.
  - rewrite len_times by lia. change (len [SP]) with 1. lia.
Qed.


(** ** Column widths *)

(** The loop of [col_width] collects the line lengths of the cell at [col]
    of every row. *)
Lemma col_width_lens (cells : list (list Cell)) (col : nat) (acc lens : list Z) :
  for_each (λ lens row, cell <- index row col;; Ok (lens ++ (len <$> cell)))
    acc cells = Ok lens →
  ∃ column : list Cell,
    Forall2 (λ row cell, row !! col = Some cell) cells column ∧
    lens = acc ++ concat ((λ cell : Cell, len <$> cell) <$> column).
Proof.
  revert acc. induction cells as [|row cells IH]; intros acc Hlens.
  - injection Hlens as <-. exists []. split; [constructor|]. by rewrite app_nil_r.
  - rewrite for_each_cons in Hlens.
    apply bind_Ok in Hlens as (acc' & Hrow & Hlens).
    apply bind_Ok in Hrow as (cell & Hcell & Hrow). injection Hrow as <-.
    apply IH in Hlens as (column & Hcolumn & ->).
    exists (cell :: column). split.
    + constructor; [|done]. unfold index in Hcell.
      destruct (row !! col); by simplify_eq.
    + simpl. by rewrite <- app_assoc.
Qed.

Lemma elem_of_concat {A} (x : A) (ls : list (list A)) :
  x ∈ concat ls ↔ ∃ l, x ∈ l ∧ l ∈ ls.
Proof.
  induction ls as [|k ls IH]; simpl.
  - split; [by intros ?%elem_of_nil|]. by intros (l & _ & ?%elem_of_nil).
  - rewrite elem_of_app, IH. split.
    + intros [Hx|(l & Hx & Hl)]; [exists k; split; [done|left]|].
      exists l. split; [done|by right].
    + intros (l & Hx & Hl). apply elem_of_cons in Hl as [->|Hl]; [by left|].
      right. eauto.
Qed.

Lemma col_width_Ok (cells : list (list Cell)) (col : nat) (w : Z) :
  col_width cells col = Ok w →
  (∀ row cell line,
     row ∈ cells → row !! col = Some cell → line ∈ cell → len line ≤ w) ∧
  (∃ row cell line,
     row ∈ cells ∧ row !! col = Some cell ∧ line ∈ cell ∧ len line = w).
Proof.
  unfold col_width. intros Hw.
  apply bind_Ok in Hw as (lens & Hlens & Hmax).
  apply col_width_lens in Hlens as (column & Hcolumn & ->). simpl in Hmax.
  apply py_max_Ok in Hmax as [Hin Hall]. split.
  - intros row cell line Hrow Hcell Hline.
    rewrite Forall_forall in Hall. apply Hall.
    apply elem_of_concat. exists (len <$> cell). split.
    + by apply list_elem_of_fmap_2.
    + apply list_elem_of_fmap. exists cell. split; [done|].
      apply list_elem_of_lookup in Hrow as [i Hi].
      destruct (Forall2_lookup_l _ _ _ _ _ Hcolumn Hi) as (cell' & Hcell' & Hlook).
      rewrite Hcell in Hlook. injection Hlook as <-.
      by eapply list_elem_of_lookup_2.
  - apply elem_of_concat in Hin as (ls & Hin & Hls).
    apply list_elem_of_fmap in Hls as (cell & -> & Hcell).
    apply list_elem_of_fmap in Hin as (line & -> & Hline).
    apply list_elem_of_lookup in Hcell as [i Hi].
    destruct (Forall2_lookup_r _ _ _ _ _ Hcolumn Hi) as (row & Hrow & Hlook).
    exists row, cell, line. repeat split; try done.
    by eapply list_elem_of_lookup_2.
Qed.

Lemma cols_width_lookup (self : CSV2TXT) (rows : list (list (option str)))
    (t : Layout) (col : nat) (w : Z) :
  layout self rows = Ok t →
  cols_width t !! col = Some w →
  col_width (cells t) col = Ok w.
Proof.
  intros Ht Hw. apply layout_Ok in Ht as (cols & g & _ & Hws & _).
  apply list_comp_Ok in Hws.
  destruct (Forall2_lookup_r _ _ _ _ _ Hws Hw) as (col' & Hcol' & Hcol).
  unfold range in Hcol'. apply lookup_seq in Hcol' as [-> _]. done.
Qed.

(** X2: the width that [generate] gives a column is the length of the
    longest line of the wrapped cells of that column: no line of the column
    is longer, some line is that long, and there is one width per column of
    the grid. *)
Theorem column_width_is_longest_line (self : CSV2TXT)
    (rows : list (list (option str))) (t : Layout) :
  layout self rows = Ok t →
  Forall (λ row, length row = length (cols_width t)) (cells t) ∧
  ∀ col w,
    cols_width t !! col = Some w →
    (∀ row cell line,
       row ∈ cells t → row !! col = Some cell → line ∈ cell → len line ≤ w) ∧
    (∃ row cell line,
       row ∈ cells t ∧ row !! col = Some cell ∧ line ∈ cell ∧ len line = w).
Proof.
  intros Ht. split.
  - pose proof Ht as Hlayout.
    apply layout_Ok in Ht as (cols & g & Hgrid & Hws & _).
    apply list_comp_length in Hws. unfold range in Hws. rewrite length_seq in Hws.
    destruct (grid_Ok _ _ _ _ Hgrid) as (_ & (row & _ & Hrow) & Hlen & _).
    eapply Forall_impl; [exact Hlen|]. intros r Hr. simpl in Hr.
    unfold len in Hr, Hrow. lia.
  - intros col w Hw. apply col_width_Ok. by eapply cols_width_lookup.
Qed.

Lemma column_width_is_longest_line_witness :
  ∃ t, layout default_config
         [[Some (lit "a"); Some (lit "bb\nbbbb")]; [Some (lit "ccc")]] = Ok t ∧
       cols_width t = [3; 4] ∧
       Forall (λ row, length row = 2%nat) (cells t).
Proof.
  eexists. split; [reflexivity|]. split; [reflexivity|].
  exact (proj1 (column_width_is_longest_line default_config
                  [[Some (lit "a"); Some (lit "bb\nbbbb")]; [Some (lit "ccc")]]
                  _ eq_refl)).
Defined.

(** ** What [generate] raises *)

Lemma list_comp_Raise {A B} (f : A → result B) (l : list A) (e : exn) :
  Forall (λ x, (∃ y, f x = Ok y) ∨ f x = Raise e) l →
  Exists (λ x, f x = Raise e) l →
  list_comp f l = Raise e.
Proof.
  induction 1 as [|x l Hx _ IH]; intros Hex; [by apply Exists_nil in Hex|].
  simpl. destruct Hx as [[y Hy]|Hx]; [|by rewrite Hx]. rewrite Hy. simpl.
  apply Exists_cons in Hex as [Hex|Hex]; [congruence|].
  by rewrite IH.
Qed.

Lemma wrap_cell_negative (self : CSV2TXT) (width : Z) (text : str) :
  max_width self = Some width → width < 0 →
  wrap_cell self (Some text) = Raise ValueError.
Proof.
  intros Hw Hneg. unfold wrap_cell.
  rewrite (for_each_wrap self width) by (done || lia).
  assert (or_else (splitlines (escape self text)) [[]] ≠ []) as Hne
    by (by apply or_else_nonempty).
  destruct (or_else _ _) as [|line lines]; [done|]. simpl.
  by rewrite wrap_Raise by lia.
Qed.

Lemma wrap_cell_Ok_or_ValueError (self : CSV2TXT) (text : option str) :
  (∃ lines, wrap_cell self text = Ok lines) ∨ wrap_cell self text = Raise ValueError.
Proof.
  destruct (max_width self) as [width|] eqn:Hw.
  - destruct (Z.lt_ge_cases width 0) as [Hneg|Hpos].
    + destruct text as [text|]; [right; by eapply wrap_cell_negative|left; simpl; eauto].
    + left. apply wrap_cell_total. unfold width_accepted. by rewrite Hw.
  - left. apply wrap_cell_total. unfold width_accepted. by rewrite Hw.
Qed.

(** X3: a negative [max_width] makes [generate] raise ValueError as soon as
    the rows hold a cell with a text, whatever the text. *)
Theorem render_negative_width (self : CSV2TXT) (rows : list (list (option str)))
    (title : option str) (width : Z) :
  max_width self = Some width →
  width < 0 →
  (∃ row text, row ∈ rows ∧ Some text ∈ row) →
  render self rows title = Raise ValueError.
Proof.
  intros Hw Hneg (row & text & Hrow & Htext).
  unfold render.
  destruct rows as [|row0 rows0] eqn:Erows; [by apply elem_of_nil in Hrow|].
  rewrite <- Erows in *. unfold layout, grid.
  assert (list_comp (list_comp (wrap_cell self)) rows = Raise ValueError) as ->; [|done].
  assert (∀ r : list (option str),
            (∃ y, list_comp (wrap_cell self) r = Ok y) ∨
            list_comp (wrap_cell self) r = Raise ValueError) as Hrows.
  { induction r as [|c r IH]; simpl; [left; eauto|].
    destruct (wrap_cell_Ok_or_ValueError self c) as [[ls ->]| ->]; [|by right].
    simpl. destruct IH as [[y ->]| ->]; [left; simpl; eauto|by right]. }
  apply list_comp_Raise.
  - apply Forall_forall. intros r _. apply Hrows.
  - apply Exists_exists. exists row. split; [done|].
    apply list_comp_Raise.
    + apply Forall_forall. intros c _. apply wrap_cell_Ok_or_ValueError.
    + apply Exists_exists. exists (Some text). split; [done|].
      by eapply wrap_cell_negative.
Qed.

Lemma render_negative_width_witness :
  render (with_max_width default_config (Some (-3)))
    [[None; Some (lit "a")]] (Some (lit "T")) = Raise ValueError.
Proof.
  apply (render_negative_width _ _ _ (-3)).
  - reflexivity.
  - lia.
  - exists [None; Some (lit "a")], (lit "a"). split; [left|right; left].
Defined.

Lemma unpack_Raise (l : list str) :
  length l ≠ 11%nat → unpack l = Raise ValueError.
Proof.
  intros Hl. do 12 (destruct l as [|? l]; try done).
Qed.

(** X4: when the border symbols do not split into eleven glyphs, [generate]
    raises ValueError for every input with rows (and a [max_width] that
    [textwrap.wrap] accepts): the unpacking fails before any line is
    built. *)
Theorem render_wrong_glyph_count (self : CSV2TXT) (rows : list (list (option str)))
    (title : option str) :
  width_accepted self →
  rows ≠ [] →
  length (split (border_symbols self)) ≠ 11%nat →
  render self rows title = Raise ValueError.
Proof.
  intros Hw Hrows Hglyphs. unfold render.
  destruct rows as [|row0 rows0] eqn:Erows; [done|]. rewrite <- Erows in *.
  assert (layout self rows = Raise ValueError) as ->; [|done].
  unfold layout.
  destruct (grid_total self rows Hw Hrows) as (cells & cols & Hgrid).
  rewrite Hgrid. simpl.
  destruct (grid_Ok _ _ _ _ Hgrid) as (_ & _ & Hlen & Hshape).
  pose proof (grid_cells_nonempty _ _ _ _ Hgrid) as Hcells.
  destruct (list_comp_total (col_width cells) (range cols)) as [ws ->].
  { apply Forall_forall. intros col Hcol. apply (col_width_total cells cols).
    - apply Forall2_length in Hshape. destruct cells; [|done]. by destruct rows.
    - done.
    - done.
    - unfold range in Hcol. apply elem_of_seq in Hcol. lia. }
  simpl. by rewrite unpack_Raise.
Qed.

Lemma render_wrong_glyph_count_witness :
  render
    {| border_symbols := lit "- | +"; spacing := 1; separator := 44%N;
       max_width := None; align := None; valign := MIDDLE; title_align := CENTER |}
    [[Some (lit "a")]] None = Raise ValueError.
Proof.
  apply render_wrong_glyph_count.
  - exact I.
  - discriminate.
  - vm_compute. discriminate.
Defined.

(** The rows that [csv.reader] returns for empty lines. *)
Lemma reader_empty_lines (sep : char) (n : nat) :
  Csv.reader (replicate n []) sep = Ok (replicate n []).
Proof.
  unfold Csv.reader. induction n as [|n IH]; [done|].
  simpl. simpl in IH. by rewrite IH.
Qed.

Lemma get_rows_empty_lines (self : CSV2TXT) (n : nat) :
  get_rows self (replicate n []) = Ok (replicate n []).
Proof.
  unfold get_rows. cbv zeta. rewrite fmap_replicate.
  change (replace [] [BACKSLASH; separator self] com) with (@nil N).
  rewrite reader_empty_lines. cbv beta iota delta [bind].
  by rewrite fmap_replicate.
Qed.

(** X5: rows that are all empty (an input of blank lines only) make
    [generate] raise ValueError: there is no column, and the height of the
    first row is the max of an empty sequence. *)
Theorem render_blank_rows (self : CSV2TXT) (rows : list (list (option str)))
    (title : option str) (n : nat) :
  rows ≠ [] →
  Forall (λ row, row = []) rows →
  render self rows title = Raise ValueError ∧
  generate self (replicate (S n) []) title = Raise ValueError.
Proof.
  assert (∀ rows : list (list (option str)),
            rows ≠ [] → Forall (λ row, row = []) rows →
            render self rows title = Raise ValueError) as Hrender.
  { clear rows. intros rows Hrows Hblank. unfold render.
    destruct rows as [|row0 rows0] eqn:Erows; [done|]. rewrite <- Erows in *.
    assert (grid self rows = Ok (replicate (length rows) [], 0)) as Hgrid.
    { unfold grid.
      assert (list_comp (list_comp (wrap_cell self)) rows =
              Ok (replicate (length rows) [])) as ->.
      { clear Hrows Erows. induction Hblank as [|row rows' -> _ IH]; [done|].
        simpl. simpl in IH. by rewrite IH. }
      simpl.
      assert (py_max (len <$> rows) = Ok 0) as ->.
      { destruct (py_max_total (len <$> rows)) as [m Hm]; [by rewrite Erows|].
        rewrite Hm. apply py_max_Ok in Hm as [Hin _].
        apply list_elem_of_fmap in Hin as (row & -> & Hrow).
        rewrite Forall_forall in Hblank. by rewrite (Hblank row Hrow). }
      simpl. f_equal. f_equal. clear. induction (length rows); [done|].
      simpl. by f_equal. }
    unfold layout. rewrite Hgrid. simpl.
    destruct (unpack (split (border_symbols self))) as [g|e] eqn:Hg; simpl.
    - rewrite Erows. simpl. done.
    - assert (length (split (border_symbols self)) ≠ 11%nat) as Hlen.
      { intros Hlen. destruct (unpack_total _ Hlen) as [g Hg']. congruence. }
      rewrite (unpack_Raise _ Hlen) in Hg. by injection Hg as <-. }
  intros Hrows Hblank. split; [by apply Hrender|].
  unfold generate. rewrite get_rows_empty_lines.
  cbv beta iota delta [bind]. rewrite fmap_replicate. apply Hrender.
  - done.
  - apply Forall_forall. intros row Hrow.
    by apply elem_of_replicate_inv in Hrow as ->.
Qed.

Lemma render_blank_rows_witness :
  render default_config [[]; []] (Some (lit "T")) = Raise ValueError ∧
  generate default_config [[]; []; []] (Some (lit "T")) = Raise ValueError.
Proof.
  apply (render_blank_rows default_config [[]; []] (Some (lit "T")) 2).
  - discriminate.
  - repeat constructor.
Defined.

(** ** Wrapped lines fit the width *)

Lemma len_concat_snoc (ls : list str) (l : str) :
  len (concat (ls ++ [l])) = len (concat ls) + len l.
Proof. rewrite concat_app, len_app. simpl. by rewrite app_nil_r. Qed.

Lemma fill_line_len (width : Z) (chunks cur_line : list str) (cur_len : Z)
    (cur_line' chunks' : list str) (cur_len' : Z) :
  TextWrap.fill_line width cur_line cur_len chunks = (cur_line', cur_len', chunks') →
  cur_len = len (concat cur_line) → cur_len ≤ width →
  cur_len' = len (concat cur_line') ∧ cur_len' ≤ width.
Proof.
  revert cur_line cur_len.
  induction chunks as [|chunk chunks IH]; intros cur_line cur_len Hfill Hlen Hle;
    simpl in Hfill.
  - by injection Hfill as <- <- <-.
  - destruct (Z.leb_spec (cur_len + len chunk) width) as [Hfit|Hlong].
    + apply IH in Hfill; [done|rewrite len_concat_snoc; lia|lia].
    + by injection Hfill as <- <- <-.
Qed.

Lemma rfind_hyphen_bound (i : Z) (s : str) :
  0 ≤ i →
  TextWrap.rfind_hyphen i s = -1 ∨
  i ≤ TextWrap.rfind_hyphen i s < i + len s.
Proof.
  revert i. induction s as [|c s IH]; intros i Hi; simpl; [by left|].
  assert (len (c :: s) = len s + 1) as -> by (unfold len; simpl length; lia).
  pose proof (len_nonneg s) as Hs.
  destruct (IH (i + 1) ltac:(lia)) as [Hr|Hr].
  - rewrite Hr. simpl. destruct (c =? HYPHEN)%N; [right; lia|by left].
  - destruct (Z.eqb_spec (TextWrap.rfind_hyphen (i + 1) s) (-1)) as [Heq|_]; [lia|].
    right. lia.
Qed.

Lemma len_upto (s : str) (n : Z) : 0 ≤ n → len (TextWrap.upto s n) ≤ n.
Proof.
  intros Hn. unfold TextWrap.upto.
  destruct (Z.ltb_spec n 0) as [|_]; [lia|].
  unfold len. rewrite length_take. lia.
Qed.

Lemma handle_long_word_len (chunks cur_line : list str) (cur_len width : Z)
    (chunks' cur_line' : list str) :
  TextWrap.handle_long_word chunks cur_line cur_len width = (chunks', cur_line') →
  1 ≤ width → cur_len = len (concat cur_line) → cur_len ≤ width →
  len (concat cur_line') ≤ width.
Proof.
  destruct chunks as [|chunk rest]; unfold TextWrap.handle_long_word.
  - intros [= <- <-]. lia.
  - intros [= <- <-] Hw Hlen Hle.
    match goal with |- context [TextWrap.upto chunk ?e] => set (end_ := e) end.
    rewrite len_concat_snoc.
    assert (0 ≤ end_ ≤ width - cur_len) as Hend.
    { subst end_. destruct (Z.ltb_spec width 1) as [|_]; [lia|].
      destruct (_ && _ && _) eqn:Hcond; [|lia].
      apply andb_prop in Hcond as [Hcond _]. apply andb_prop in Hcond as [_ Hhyphen].
      apply Z.ltb_lt in Hhyphen.
      destruct (rfind_hyphen_bound 0 (TextWrap.upto chunk (width - cur_len))
                  ltac:(lia)) as [Hr|Hr]; [lia|].
      pose proof (len_upto chunk (width - cur_len) ltac:(lia)). lia. }
    pose proof (len_upto chunk end_ ltac:(lia)). lia.
Qed.

Lemma drop_blank_end_len (cur_line : list str) :
  len (concat (TextWrap.drop_blank_end cur_line)) ≤ len (concat cur_line).
Proof.
  unfold TextWrap.drop_blank_end.
  destruct (reverse cur_line) as [|c before] eqn:Hrev; [lia|].
  destruct (isblank c); [|lia].
  assert (cur_line = reverse before ++ [c]) as ->.
  { rewrite <- (reverse_involutive cur_line), Hrev. by rewrite reverse_cons. }
  rewrite len_concat_snoc. pose proof (len_nonneg c). lia.
Qed.

(** A round of the loop of [_wrap_chunks] adds at most one line, and the
    line fits the width. *)
Lemma wrap_line_fits (width : Z) (lines chunks lines' chunks' : list str) :
  1 ≤ width →
  TextWrap.wrap_line width lines chunks = (lines', chunks') →
  lines' = lines ∨ ∃ line, lines' = lines ++ [line] ∧ len line ≤ width.
Proof.
  intros Hw. unfold TextWrap.wrap_line.
  match goal with |- context [TextWrap.fill_line width [] 0 ?cs] =>
    destruct (TextWrap.fill_line width [] 0 cs) as [[cur_line cur_len] chunks2] eqn:Hfill
  end.
  apply fill_line_len in Hfill as [Hlen Hle]; [|done|lia].
  assert (∀ cur_line3 : list str,
            len (concat cur_line3) ≤ width →
            ∀ chunks3,
            (match TextWrap.drop_blank_end cur_line3 with
             | [] => lines
             | _ :: _ => lines ++ [concat (TextWrap.drop_blank_end cur_line3)]
             end, chunks3) = (lines', chunks') →
            lines' = lines ∨ ∃ line, lines' = lines ++ [line] ∧ len line ≤ width)
    as Hfinish.
  { intros cur_line3 Hfit chunks3 Heq.
    pose proof (drop_blank_end_len cur_line3) as Hdrop.
    destruct (TextWrap.drop_blank_end cur_line3) as [|x xs].
    - injection Heq as <- _. by left.
    - injection Heq as <- _. right. exists (concat (x :: xs)). split; [done|lia]. }
  destruct chunks2 as [|c rest]; [apply Hfinish; lia|].
  destruct (Z.ltb_spec width (len c)) as [Hlong|Hshort]; [|apply Hfinish; lia].
  destruct (TextWrap.handle_long_word (c :: rest) cur_line cur_len width)
    as [chunks3 cur_line3] eqn:Hlong_word.
  apply handle_long_word_len in Hlong_word; [|done..].
  by apply Hfinish.
Qed.

Lemma wrap_chunks_fit (fuel : nat) (width : Z) (lines chunks out : list str) :
  1 ≤ width →
  Forall (λ line, len line ≤ width) lines →
  TextWrap.wrap_chunks fuel width lines chunks = Ok out →
  Forall (λ line, len line ≤ width) out.
Proof.
  intros Hw. revert lines chunks.
  induction fuel as [|fuel IH]; intros lines chunks Hlines Hout.
  - destruct chunks; simpl in Hout; [by injection Hout as <-|done].
  - destruct chunks as [|c cs]; simpl in Hout; [by injection Hout as <-|].
    destruct (TextWrap.wrap_line width lines (c :: cs)) as [lines' chunks'] eqn:Hline.
    destruct (wrap_line_fits _ _ _ _ _ Hw Hline) as [->|(line & -> & Hfit)].
    + by eapply IH.
    + eapply IH; [|exact Hout]. apply Forall_app. split; [done|]. by constructor.
Qed.

Lemma wrap_fits (text : str) (width : Z) (lines : list str) :
  TextWrap.wrap text width = Ok lines →
  Forall (λ line, len line ≤ width) lines.
Proof.
  unfold TextWrap.wrap. destruct (Z.leb_spec width 0) as [|Hw]; [done|].
  apply wrap_chunks_fit; [lia|constructor].
Qed.

Lemma wrap_cell_fits (self : CSV2TXT) (text : option str) (width : Z)
    (lines : list str) :
  max_width self = Some width → 0 < width →
  wrap_cell self text = Ok lines →
  Forall (λ line, len line ≤ width) lines.
Proof.
  intros Hw Hpos. destruct text as [text|]; simpl.
  - intros Hlines. apply bind_Ok in Hlines as (wrapped & Hwrapped & Hlines).
    injection Hlines as <-.
    assert (Forall (λ line, len line ≤ width) wrapped) as Hall.
    { eapply (for_each_invariant (Forall (λ line, len line ≤ width)));
        [|constructor|exact Hwrapped].
      intros acc line acc' Hacc _ Hbody. unfold wrap_line_of in Hbody.
      rewrite Hw in Hbody. destruct (Z.eqb_spec width 0) as [|_]; [lia|].
      apply bind_Ok in Hbody as (ws & Hws & Hbody). injection Hbody as <-.
      apply Forall_app. split; [done|]. by eapply wrap_fits. }
    destruct wrapped; [|done]. simpl. constructor; [|done].
    unfold len. simpl. lia.
  - intros [= <-]. constructor; [|done]. unfold len. simpl. lia.
Qed.

(** X6: with a positive [max_width], every line that [wrap_cell] returns
    has at most [max_width] characters, whatever the text of the cell (words
    longer than the width are broken). *)
Theorem wrap_cell_respects_max_width (self : CSV2TXT) (text : option str)
    (width : Z) (lines : list str) :
  max_width self = Some width →
  0 < width →
  wrap_cell self text = Ok lines →
  Forall (λ line, len line ≤ width) lines.
Proof. apply wrap_cell_fits. Qed.

Lemma wrap_cell_respects_max_width_witness :
  wrap_cell (with_max_width default_config (Some 4))
    (Some (lit "abcdefghij kl-mnopq")) =
    Ok [lit "abcd"; lit "efgh"; lit "ij"; lit "kl-m"; lit "nopq"] ∧
  Forall (λ line, len line ≤ 4)
    [lit "abcd"; lit "efgh"; lit "ij"; lit "kl-m"; lit "nopq"].
Proof.
  split; [reflexivity|].
  apply (wrap_cell_respects_max_width (with_max_width default_config (Some 4))
           (Some (lit "abcdefghij kl-mnopq")) 4).
  - reflexivity.
  - lia.
  - reflexivity.
Defined.

(** X7: with a positive [max_width], no column of the table is wider than
    [max_width]. *)
Theorem columns_respect_max_width (self : CSV2TXT)
    (rows : list (list (option str))) (t : Layout) (width : Z) :
  max_width self = Some width →
  0 < width →
  layout self rows = Ok t →
  Forall (λ w, 0 ≤ w ≤ width) (cols_width t).
Proof.
  intros Hw Hpos Ht. apply Forall_lookup. intros col w Hcol.
  pose proof (cols_width_lookup _ _ _ _ _ Ht Hcol) as Hwidth.
  split; [by eapply col_width_nonneg|].
  apply col_width_Ok in Hwidth as [_ (row & cell & line & Hrow & Hcell & Hline & <-)].
  apply layout_Ok in Ht as (cols & g & Hgrid & _).
  destruct (grid_Ok _ _ _ _ Hgrid) as (_ & _ & _ & Hshape).
  apply list_elem_of_lookup in Hrow as [i Hi].
  destruct (Forall2_lookup_r _ _ _ _ _ Hshape Hi) as (raw & _ & wrapped & Hwrapped & ->).
  apply list_elem_of_lookup_2 in Hcell.
  apply elem_of_app in Hcell as [Hcell|Hcell].
  - apply list_comp_Ok in Hwrapped.
    apply list_elem_of_lookup in Hcell as [j Hj].
    destruct (Forall2_lookup_r _ _ _ _ _ Hwrapped Hj) as (c & _ & Hc).
    pose proof (wrap_cell_fits _ _ _ _ Hw Hpos Hc) as Hfit.
    rewrite Forall_forall in Hfit. by apply Hfit.
  - apply elem_of_replicate_inv in Hcell as ->.
    apply list_elem_of_singleton in Hline as ->. unfold len. simpl. lia.
Qed.

Lemma columns_respect_max_width_witness :
  ∃ t, layout (with_max_width default_config (Some 4))
         [[Some (lit "abcdefghij kl-mnopq"); Some (lit "x")]] = Ok t ∧
       cols_width t = [4; 1] ∧
       Forall (λ w, 0 ≤ w ≤ 4) (cols_width t).
Proof.
  eexists. split; [reflexivity|]. split; [reflexivity|].
  apply (columns_respect_max_width (with_max_width default_config (Some 4))
           [[Some (lit "abcdefghij kl-mnopq"); Some (lit "x")]] _ 4).
  - reflexivity.
  - lia.
  - reflexivity.
Defined.

(** ** Escaped line breaks and the lines of a cell *)

Lemma replace_scan_unchanged (o : char) (old new s : str) :
  Forall (λ c, c ≠ o) s → replace_scan (o :: old) new 0 s = s.
Proof.
  intros Hs. rewrite <- (app_nil_r s) at 1.
  rewrite replace_scan_pass by done. simpl. by rewrite app_nil_r.
Qed.

(** [escape] on lines joined by the escaped line break. *)
Lemma escape_joined_lines (self : CSV2TXT) (lines : list str) :
  Forall (Forall (λ c, c ≠ BACKSLASH)) lines →
  escape self (join [BACKSLASH; LOWER_N] lines) = join [LF] lines.
Proof.
  intros Hlines. unfold escape, replace.
  rewrite <- (app_nil_r (join [BACKSLASH; LOWER_N] lines)).
  rewrite replace_join by done. simpl replace_scan at 2. rewrite app_nil_r.
  apply replace_scan_unchanged, Forall_join; [|done].
  constructor; [done|constructor].
Qed.

Lemma pieces_line (line rest : str) :
  Forall (λ c, is_linebreak c = false) line →
  pieces false (line ++ rest) =
  (line ++ (pieces false rest).1, (pieces false rest).2).
Proof.
  induction 1 as [|c line Hc _ IH]; simpl; [by destruct (pieces false rest)|].
  rewrite Hc, IH. done.
Qed.

Lemma pieces_joined_lines (line : str) (lines : list str) :
  Forall (Forall (λ c, is_linebreak c = false)) (line :: lines) →
  pieces false (join [LF] (line :: lines)) = (line, lines).
Proof.
  revert line. induction lines as [|line' lines IH]; intros line Hall.
  - apply Forall_cons_1 in Hall as [Hline _]. simpl.
    rewrite <- (app_nil_r line) at 1. rewrite pieces_line by done.
    simpl. by rewrite app_nil_r.
  - apply Forall_cons_1 in Hall as [Hline Hall].
    change (join [LF] (line :: line' :: lines))
      with (line ++ LF :: join [LF] (line' :: lines)).
    rewrite pieces_line by done.
    change (pieces false (LF :: join [LF] (line' :: lines)))
      with (let '(l, ls) := pieces false (join [LF] (line' :: lines)) in
            (@nil N, l :: ls)).
    rewrite IH by done. simpl. by rewrite app_nil_r.
Qed.

Lemma drop_last_empty_snoc (lines : list str) (line : str) :
  drop_last_empty (lines ++ [line]) =
  match line with
  | [] => lines
  | _ :: _ => lines ++ [line]
  end.
Proof.
  induction lines as [|l lines IH]; simpl; [by destruct line|].
  rewrite IH. destruct (lines ++ [line]) eqn:Happ; [by destruct lines|].
  destruct line; by rewrite <- ?Happ.
Qed.

Lemma splitlines_joined_lines (lines : list str) (line : str) :
  Forall (Forall (λ c, is_linebreak c = false)) (lines ++ [line]) →
  splitlines (join [LF] (lines ++ [line])) =
  match line with
  | [] => lines
  | _ :: _ => lines ++ [line]
  end.
Proof.
  intros Hall. unfold splitlines.
  destruct (lines ++ [line]) as [|l ls] eqn:Happ; [by destruct lines|].
  rewrite pieces_joined_lines by done. rewrite <- Happ.
  apply drop_last_empty_snoc.
Qed.



(** ** Lines that fit are kept *)

(** [wordsep_re.split] loses nothing: the chunks, put together, are the
    text. *)
Lemma chunks_from_concat (kind : TextWrap.chunk_kind) (before cur after : str) :
  concat (TextWrap.chunks_from kind before cur after) = reverse cur ++ after.
Proof.
  revert kind before cur.
  induction after as [|c after IH]; intros kind before cur.
  - destruct cur; simpl; [done|]. by rewrite app_nil_r.
  - cbn [TextWrap.chunks_from].
    destruct cur as [|x cur]; [by rewrite IH|].
    assert (∀ k, concat (reverse (x :: cur) ::
                         TextWrap.chunks_from k (c :: before) [c] after) =
                 reverse (x :: cur) ++ c :: after) as Hrestart
      by (intros k; simpl; by rewrite IH).
    assert (∀ k, concat (TextWrap.chunks_from k (c :: before) (c :: x :: cur) after) =
                 reverse (x :: cur) ++ c :: after) as Hgo
      by (intros k; by rewrite IH, (reverse_cons (x :: cur) c), <- app_assoc).
    destruct kind.
    + destruct (TextWrap.goes_on _ _ _); [apply Hgo|apply Hrestart].
    + destruct (TextWrap.goes_on _ _ _); [apply Hgo|apply Hrestart].
    + destruct (TextWrap.hyphen_break _ _).
      * simpl. rewrite IH. simpl.
        by rewrite (reverse_cons (x :: cur) c), <- app_assoc.
      * destruct (TextWrap.goes_on _ _ _); [apply Hgo|apply Hrestart].
Qed.

(** No chunk is empty. *)
Lemma chunks_from_nonempty (kind : TextWrap.chunk_kind) (before cur after : str) :
  Forall (λ chunk, chunk ≠ []) (TextWrap.chunks_from kind before cur after).
Proof.
  assert (∀ x (l : str), reverse (x :: l) ≠ []) as Hrev.
  { intros x l Hnil. apply (f_equal length) in Hnil.
    rewrite length_reverse in Hnil. done. }
  revert kind before cur.
  induction after as [|c after IH]; intros kind before cur.
  - destruct cur; simpl; [constructor|]. constructor; [apply Hrev|constructor].
  - cbn [TextWrap.chunks_from].
    destruct cur as [|x cur]; [apply IH|].
    destruct kind.
    + destruct (TextWrap.goes_on _ _ _); [apply IH|]. constructor; [apply Hrev|apply IH].
    + destruct (TextWrap.goes_on _ _ _); [apply IH|]. constructor; [apply Hrev|apply IH].
    + destruct (TextWrap.hyphen_break _ _); [constructor; [apply Hrev|apply IH]|].
      destruct (TextWrap.goes_on _ _ _); [apply IH|]. constructor; [apply Hrev|apply IH].
Qed.

Lemma linebreak_isspace (c : char) : is_linebreak c = true → isspace c = true.
Proof.
  unfold is_linebreak. intros Hc%bool_decide_eq_true.
  repeat (apply elem_of_cons in Hc as [->|Hc]; [reflexivity|]).
  by apply elem_of_nil in Hc.
Qed.

Lemma whitespace_isspace (c : char) : TextWrap.is_whitespace c = true → isspace c = true.
Proof.
  unfold TextWrap.is_whitespace. intros Hc%bool_decide_eq_true.
  repeat (apply elem_of_cons in Hc as [->|Hc]; [reflexivity|]).
  by apply elem_of_nil in Hc.
Qed.

Lemma expandtabs_no_space (tabsize column : Z) (s : str) :
  Forall (λ c, isspace c = false) s → expandtabs_from tabsize column s = s.
Proof.
  intros Hs. revert column. induction Hs as [|c s Hc _ IH]; intros column; [done|].
  simpl. destruct (N.eqb_spec c TAB) as [->|_]; [done|]. by rewrite IH.
Qed.

Lemma munge_no_space (s : str) :
  Forall (λ c, isspace c = false) s → TextWrap.munge_whitespace s = s.
Proof.
  intros Hs. unfold TextWrap.munge_whitespace, expandtabs.
  rewrite expandtabs_no_space by done.
  induction Hs as [|c s Hc _ IH]; [done|]. rewrite fmap_cons, IH. f_equal.
  destruct (TextWrap.is_whitespace c) eqn:Hws; [|done].
  apply whitespace_isspace in Hws. congruence.
Qed.

Lemma fill_line_all (width : Z) (chunks cur_line : list str) (cur_len : Z) :
  cur_len + len (concat chunks) ≤ width →
  TextWrap.fill_line width cur_line cur_len chunks =
  (cur_line ++ chunks, cur_len + len (concat chunks), []).
Proof.
  revert cur_line cur_len.
  induction chunks as [|chunk chunks IH]; intros cur_line cur_len Hfit.
  - simpl. rewrite app_nil_r. do 2 f_equal. unfold len. simpl. lia.
  - simpl. simpl in Hfit. rewrite len_app in Hfit.
    pose proof (len_nonneg (concat chunks)).
    destruct (Z.leb_spec (cur_len + len chunk) width) as [_|]; [|lia].
    rewrite IH by lia. rewrite <- app_assoc, len_app. do 2 f_equal. lia.
Qed.

(** A text without whitespace that fits the width is one line. *)
Lemma wrap_fitting_word (line : str) (width : Z) :
  line ≠ [] →
  Forall (λ c, isspace c = false) line →
  len line ≤ width →
  TextWrap.wrap line width = Ok [line].
Proof.
  intros Hne Hchars Hfit. unfold TextWrap.wrap, TextWrap.split_chunks.
  rewrite munge_no_space by done.
  pose proof (chunks_from_concat TextWrap.Word [] [] line) as Hconcat.
  pose proof (chunks_from_nonempty TextWrap.Word [] [] line) as Hnonempty.
  simpl in Hconcat.
  set (chunks := TextWrap.chunks_from TextWrap.Word [] [] line) in *.
  assert (0 < width) as Hw.
  { destruct line; [done|]. unfold len in Hfit. simpl in Hfit. lia. }
  destruct (Z.leb_spec width 0) as [|_]; [lia|].
  assert (chunks ≠ []) as Hchunks by (intros Heq; rewrite Heq in Hconcat; by subst).
  assert (TextWrap.wrap_line width [] chunks = ([line], [])) as Hline.
  { unfold TextWrap.wrap_line.
    assert (match chunks with
            | c :: cs => chunks
            | [] => chunks
            end = chunks) as Hsame by (by destruct chunks).
    destruct chunks as [|c0 cs0] eqn:Echunks; [done|]. rewrite <- Echunks in *.
    rewrite fill_line_all by (rewrite Hconcat; lia).
    simpl app. cbv iota beta.
    assert (TextWrap.drop_blank_end chunks = chunks) as ->.
    { unfold TextWrap.drop_blank_end.
      destruct (reverse chunks) as [|c before] eqn:Hrev; [done|].
      assert (c ∈ chunks) as Hc.
      { apply elem_of_reverse. rewrite Hrev. left. }
      assert (isblank c = false) as ->; [|done].
      rewrite Forall_forall in Hnonempty. specialize (Hnonempty c Hc).
      destruct c as [|x c]; [done|]. simpl.
      assert (isspace x = false) as ->; [|done].
      rewrite Forall_forall in Hchars. apply Hchars. rewrite <- Hconcat.
      apply elem_of_concat. exists (x :: c). split; [left|done]. }
    rewrite Echunks at 1. by rewrite Hconcat. }
  destruct chunks as [|c0 cs0] eqn:Echunks; [done|]. rewrite <- Echunks in *.
  assert (TextWrap.weight chunks = S (pred (TextWrap.weight chunks))) as ->.
  { rewrite Echunks, weight_cons. done. }
  rewrite Echunks at 2. cbn [TextWrap.wrap_chunks]. rewrite <- Echunks.
  rewrite Hline. by destruct (pred _).
Qed.

(** X9: with a positive [max_width], a cell written as lines joined by the
    escaped line break is wrapped into these very lines when every line is
    not empty, has no backslash and no whitespace, and is not longer than
    [max_width]. *)
Theorem wrap_cell_fitting_lines (self : CSV2TXT) (lines : list str) (width : Z) :
  max_width self = Some width →
  0 < width →
  lines ≠ [] →
  Forall (λ line, line ≠ [] ∧ len line ≤ width ∧
                  Forall (λ c, c ≠ BACKSLASH ∧ isspace c = false) line) lines →
  wrap_cell self (Some (join [BACKSLASH; LOWER_N] lines)) = Ok lines.
Proof.
  intros Hw Hpos Hne Hall. unfold wrap_cell.
  rewrite escape_joined_lines.
  2:{ eapply Forall_impl; [exact Hall|]. intros l (_ & _ & Hl).
      eapply Forall_impl; [exact Hl|]. by intros c [? _]. }
  destruct (exists_last Hne) as (lines' & line & ->).
  rewrite splitlines_joined_lines.
  2:{ eapply Forall_impl; [exact Hall|]. intros l (_ & _ & Hl).
      eapply Forall_impl; [exact Hl|]. intros c [_ Hc].
      destruct (is_linebreak c) eqn:Hbreak; [|done].
      apply linebreak_isspace in Hbreak. congruence. }
  assert (line ≠ []) as Hline.
  { apply Forall_app in Hall as [_ Hlast]. by apply Forall_cons_1 in Hlast as [[? _] _]. }
  destruct line as [|c line]; [done|].
  set (ls := lines' ++ [c :: line]) in *.
  assert (ls ≠ []) as Hls by (subst ls; by destruct lines').
  clearbody ls.
  assert (or_else ls [[]] = ls) as -> by (by destruct ls).
  rewrite (for_each_wrap self width) by (done || lia).
  assert (list_comp (λ l, TextWrap.wrap l width) ls = Ok ((λ l, [l]) <$> ls)) as ->.
  { apply list_comp_Ok. apply Forall2_fmap_r, Forall_Forall2_diag.
    eapply Forall_impl; [exact Hall|]. intros l (Hl & Hfit & Hchars).
    apply wrap_fitting_word; [done| |done].
    eapply Forall_impl; [exact Hchars|]. by intros x [_ ?]. }
  cbv beta iota delta [bind]. rewrite app_nil_l. f_equal.
  transitivity (or_else ls [[]]); [|by destruct ls]. f_equal.
  clear. induction ls as [|l ls IH]; [done|]. simpl. f_equal. exact IH.
Qed.

Lemma wrap_cell_fitting_lines_witness :
  wrap_cell (with_max_width default_config (Some 5)) (Some (lit "ab-cd\nxyz")) =
  Ok [lit "ab-cd"; lit "xyz"].
Proof.
  apply (wrap_cell_fitting_lines (with_max_width default_config (Some 5))
           [lit "ab-cd"; lit "xyz"] 5).
  - reflexivity.
  - lia.
  - discriminate.
  - repeat first [apply Forall_nil_2 | apply Forall_cons_2];
      repeat split; try discriminate; try (by vm_compute);
      repeat first [apply Forall_nil_2 | apply Forall_cons_2]; by vm_compute.
Defined.

(** ** The lines of the table *)

Lemma len_align_text (text : str) (width : Z) (align : Align) :
  len (align_text text width align) = Z.max (len text) width.
Proof.
  destruct align; unfold align_text, ljust, rjust, center.
  - rewrite len_app, len_spaces. lia.
  - rewrite len_app, len_spaces. lia.
  - destruct (Z.leb_spec (width - len text) 0) as [Hle|Hgt]; [lia|].
    cbv zeta. rewrite !len_app, !len_spaces.
    pose proof (land_one_bounds (Z.land (width - len text) width)) as Hland.
    pose proof (Z.div_mod (width - len text) 2 ltac:(lia)) as Hdiv.
    pose proof (Z.mod_pos_bound (width - len text) 2 ltac:(lia)) as Hmod.
    destruct (Z.eq_dec (width - len text) 1) as [Heq|Hne]; [|lia].
    rewrite Heq in *. change (1 / 2) with 0 in *. lia.
Qed.

Lemma elem_of_spaced_cell (valign : VAlign) (max_height : Z) (col : Cell) (text : str) :
  text ∈ spaced_cell valign max_height col → text ∈ col ∨ text = [].
Proof.
  unfold spaced_cell. rewrite !times_singleton.
  destruct valign; rewrite !elem_of_app;
    intros Hin; decompose [or] Hin; auto; right; by eapply elem_of_replicate_inv.
Qed.

Lemma unpack_Ok (l : list str) (g : Glyphs) :
  unpack l = Ok g →
  l = [H g; V g; TL g; TM g; TR g; ML g; MM g; MR g; BL g; BM g; BR g].
Proof.
  unfold unpack. intros Hg.
  do 12 (destruct l as [|? l]; try discriminate).
  by injection Hg as <-.
Qed.

Lemma row_lines_Ok (self : CSV2TXT) (t : Layout) (lines : list str) (ri : nat)
    (row : list Cell) (out : list str) :
  row_lines self t lines (ri, row) = Ok out →
  ∃ max_height block,
    py_max (len <$> row) = Ok max_height ∧
    list_comp (row_line self t (spaced_cell (valign self) max_height <$> row))
      (range max_height) = Ok block ∧
    out = lines ++ block ++
          (if Z.of_nat ri <? len (cells t) - 1 then [middle t] else []).
Proof.
  unfold row_lines. intros Hout.
  apply bind_Ok in Hout as (max_height & Hmax & Hout).
  apply bind_Ok in Hout as (block & Hblock & Hout).
  injection Hout as <-. eauto.
Qed.

Lemma render_Ok (self : CSV2TXT) (rows : list (list (option str)))
    (title : option str) (out : str) :
  rows ≠ [] →
  render self rows title = Ok out →
  ∃ t lines,
    layout self rows = Ok t ∧
    for_each (row_lines self t) (head_lines self t title) (enumerate (cells t))
      = Ok lines ∧
    out = join [LF] (lines ++ [bottom t]).
Proof.
  intros Hrows Hout. destruct rows as [|row rows]; [done|]. unfold render in Hout.
  apply bind_Ok in Hout as (t & Ht & Hout).
  apply bind_Ok in Hout as (lines & Hlines & Hout).
  injection Hout as <-. eauto.
Qed.

(** The widths of a grid with a column, for a spacing that is not negative. *)
Lemma layout_widths (self : CSV2TXT) (rows : list (list (option str))) (t : Layout) :
  0 ≤ spacing self →
  layout self rows = Ok t →
  (∃ row, row ∈ rows ∧ row ≠ []) →
  cols_width t ≠ [] ∧
  Forall (λ w, 0 ≤ w) (cols_width t) ∧
  Forall (λ w, 0 ≤ w) (spaced_cols t) ∧
  0 ≤ total_width t ∧
  Forall (λ row : list Cell, length row = length (cols_width t)) (cells t).
Proof.
  intros Hsp Ht (row & Hrow & Hne).
  apply layout_Ok in Ht as (cols & g & Hgrid & Hws & Hspaced & Htotal & _).
  destruct (grid_Ok _ _ _ _ Hgrid) as (Hle & _ & Hlen & _).
  assert (1 ≤ cols) as Hcols.
  { specialize (Hle row Hrow). destruct row; [done|]. unfold len in Hle.
    simpl in Hle. lia. }
  pose proof (list_comp_length _ _ _ Hws) as Hlength.
  unfold range in Hlength. rewrite length_seq in Hlength.
  assert (Forall (λ w, 0 ≤ w) (cols_width t)) as Hpos.
  { apply Forall_forall. intros w Hw. apply list_comp_Ok in Hws.
    apply list_elem_of_lookup in Hw as [i Hi].
    destruct (Forall2_lookup_r _ _ _ _ _ Hws Hi) as (col & _ & Hcol).
    by apply col_width_nonneg in Hcol. }
  assert (Forall (λ w, 0 ≤ w) (spaced_cols t)) as Hspos.
  { rewrite Hspaced. apply Forall_fmap. eapply Forall_impl; [exact Hpos|].
    intros w Hw. unfold spaced_width. simpl in *. lia. }
  repeat split; try done.
  - destruct (cols_width t); [simpl in Hlength; lia|done].
  - rewrite Htotal. unfold total_width_of.
    pose proof (py_sum_nonneg _ Hspos) as Hsum.
    assert (1 ≤ len (spaced_cols t)); [|lia].
    rewrite Hspaced. unfold len. rewrite length_fmap. lia.
  - eapply Forall_impl; [exact Hlen|]. intros r Hr. simpl in Hr.
    unfold len in Hr. lia.
Qed.

(** The length of a text line of a row whose cells fit their columns. *)
Lemma len_row_line (self : CSV2TXT) (t : Layout) (spaced_cells : list Cell)
    (line : nat) (out : str) :
  0 ≤ spacing self →
  len (V (glyphs t)) = 1 →
  spaced_cols t = spaced_width self <$> cols_width t →
  total_width t = total_width_of (spaced_cols t) →
  spaced_cells ≠ [] →
  length spaced_cells = length (cols_width t) →
  (∀ ci cell text w,
     spaced_cells !! ci = Some cell → text ∈ cell → cols_width t !! ci = Some w →
     len text ≤ w) →
  row_line self t spaced_cells line = Ok out →
  len out = total_width t + 2.
Proof.
  intros Hsp HV Hspaced Htotal Hne Hlen Hfit Hout. unfold row_line in Hout.
  apply bind_Ok in Hout as (parts & Hparts & Hout). injection Hout as <-.
  apply list_comp_Ok in Hparts.
  pose proof (Forall2_length _ _ _ Hparts) as Hlength.
  unfold enumerate in Hlength. rewrite length_zip_with, length_seq in Hlength.
  assert (len <$> parts = spaced_cols t) as Hlens.
  { rewrite Hspaced. apply list_eq_Forall2, Forall2_fmap.
    apply Forall2_same_length_lookup_2; [lia|].
    intros i part w Hpart Hw.
    destruct (Forall2_lookup_r _ _ _ _ _ Hparts Hpart) as ([ci cell] & Hcell & Hbody).
    apply enumerate_lookup in Hcell as [Hci Hcell]. simpl in Hci, Hcell. subst ci.
    apply bind_Ok in Hbody as (text & Htext & Hbody).
    apply bind_Ok in Hbody as (width & Hwidth & Hbody). injection Hbody as <-.
    unfold index in Htext, Hwidth.
    destruct (cell !! line) as [text'|] eqn:Hline; [|done]. injection Htext as ->.
    rewrite Hw in Hwidth. injection Hwidth as <-.
    assert (len text ≤ w) as Hle.
    { eapply Hfit; [exact Hcell| |exact Hw]. by eapply list_elem_of_lookup_2. }
    unfold align_cell. rewrite !len_app, len_align_text, !len_spaces.
    unfold spaced_width. lia. }
  assert (parts ≠ []) as Hparts_ne.
  { destruct parts; [|done]. destruct spaced_cells; [done|]. simpl in Hlength. lia. }
  rewrite !len_app, len_join, Hlens, HV, Htotal by done.
  unfold total_width_of.
  assert (len parts = len (spaced_cols t)) as ->; [|lia].
  rewrite <- Hlens. unfold len. by rewrite length_fmap.
Qed.

(** X10: for a configuration as constructed (spacing clamped to 0 or more)
    whose glyphs are single characters, and rows with at least one cell, the
    table is rectangular: its lines, joined by line feeds, all have the
    length [total_width + 2], provided the title, when there is one, fits
    between two spaces in [total_width]. *)
Theorem table_lines_same_length (self : CSV2TXT) (rows : list (list (option str)))
    (title : option str) (t : Layout) (out : str) :
  layout (post_init self) rows = Ok t →
  render (post_init self) rows title = Ok out →
  (∃ row, row ∈ rows ∧ row ≠ []) →
  Forall (λ s : str, len s = 1) (split (border_symbols self)) →
  match title with
  | Some (c :: title') => len (c :: title') + 2 ≤ total_width t
  | _ => True
  end →
  ∃ lines,
    out = join [LF] lines ∧
    Forall (λ line, len line = total_width t + 2) lines.
Proof.
  intros Ht Hout Hrow Hglyphs Htitle.
  assert (rows ≠ []) as Hrows.
  { destruct Hrow as (row & Hrow & _). intros ->. by apply elem_of_nil in Hrow. }
  destruct (render_Ok _ _ _ _ Hrows Hout) as (t' & lines & Ht' & Hlines & ->).
  rewrite Ht in Ht'. injection Ht' as <-.
  exists (lines ++ [bottom t]). split; [done|].
  set (self' := post_init self) in *.
  assert (0 ≤ spacing self') as Hsp by (subst self'; simpl; lia).
  destruct (layout_widths self' rows t Hsp Ht Hrow)
    as (Hcols & Hpos & Hspos & Htotal_pos & Hlen).
  pose proof Ht as Hlayout.
  apply layout_Ok in Ht
    as (cols & g & Hgrid & Hws & Hspaced & Htotal & Hg & <- & Htop & Hmid & Hbot).
  apply unpack_Ok in Hg. change (border_symbols self') with (border_symbols self) in Hg.
  rewrite Hg in Hglyphs.
  repeat apply Forall_cons_1 in Hglyphs as [? Hglyphs].
  assert (spaced_cols t ≠ []) as Hspaced_ne.
  { rewrite Hspaced. by destruct (cols_width t). }
  assert (∀ left center right,
            len left = 1 → len center = 1 → len right = 1 →
            len (make_separator (H (glyphs t)) (spaced_cols t) left center right) =
            total_width t + 2) as Hsep.
  { intros left center right Hl Hc Hr. rewrite Htotal.
    by apply len_make_separator. }
  apply Forall_app. split; [|constructor; [|constructor]; rewrite Hbot; by apply Hsep].
  eapply (for_each_invariant (Forall (λ line, len line = total_width t + 2)));
    [| |exact Hlines].
  - intros acc [ri row] acc' Hacc Hin Hbody.
    apply elem_of_zip_r in Hin.
    apply row_lines_Ok in Hbody as (max_height & block & Hmax & Hblock & ->).
    apply Forall_app. split; [done|]. apply Forall_app. split.
    + apply list_comp_Ok in Hblock. apply Forall_forall. intros line Hline.
      apply list_elem_of_lookup in Hline as [i Hi].
      destruct (Forall2_lookup_r _ _ _ _ _ Hblock Hi) as (n & _ & Hrow_line).
      rewrite Forall_forall in Hlen. specialize (Hlen row Hin).
      eapply (len_row_line self' t);
        [exact Hsp|done|exact Hspaced|exact Htotal| | | |exact Hrow_line].
      * destruct row; [|done]. simpl in Hlen. by destruct (cols_width t).
      * by rewrite length_fmap.
      * intros ci cell text w Hcell Htext Hw.
        apply list_lookup_fmap_Some in Hcell as (col & -> & Hcol).
        pose proof (cols_width_lookup _ _ _ _ _ Hlayout Hw) as Hcw.
        apply elem_of_spaced_cell in Htext as [Htext| ->].
        -- destruct (col_width_Ok _ _ _ Hcw) as [Hle _]. by eapply Hle.
        -- apply col_width_nonneg in Hcw. unfold len. simpl. lia.
    + destruct (Z.of_nat ri <? len (cells t) - 1); [|constructor].
      constructor; [|constructor]. rewrite Hmid. by apply Hsep.
  - unfold head_lines. destruct title as [[|c title']|].
    + constructor; [|constructor]. rewrite Htop. by apply Hsep.
    + constructor; [|constructor; [|constructor; [|constructor]]].
      * rewrite !len_app, len_times by done. lia.
      * rewrite !len_app, len_align_text, !len_app.
        change (len (lit " ")) with 1. lia.
      * by apply Hsep.
    + constructor; [|constructor]. rewrite Htop. by apply Hsep.
Qed.

Lemma table_lines_same_length_witness :
  ∃ t out lines,
    layout default_config
      [[Some (lit "a"); Some (lit "bb\nc")]; [Some (lit "ccc")]] = Ok t ∧
    render default_config
      [[Some (lit "a"); Some (lit "bb\nc")]; [Some (lit "ccc")]] (Some (lit "T"))
      = Ok out ∧
    out = join [LF] lines ∧
    total_width t = 10 ∧
    Forall (λ line, len line = total_width t + 2) lines.
Proof.
  destruct (table_lines_same_length default_config
              [[Some (lit "a"); Some (lit "bb\nc")]; [Some (lit "ccc")]]
              (Some (lit "T")) _ _ eq_refl eq_refl) as (lines & Hout & Hlen).
  - eexists. split; [left|discriminate].
  - repeat constructor.
  - vm_compute. discriminate.
  - eexists _, _, lines. split; [reflexivity|]. split; [reflexivity|].
    split; [exact Hout|]. split; [by vm_compute|exact Hlen].
Defined.

(** The loop over the rows, from row [k] on: each row adds as many lines as
    its tallest cell has, and every row but the last of the grid one
    separator line. *)
Lemma row_loop_count (self : CSV2TXT) (t : Layout) (l : list (list Cell)) :
  ∀ (k : nat) (acc lines : list str),
    (k + length l)%nat = length (cells t) →
    for_each (row_lines self t) acc (zip (seq k (length l)) l) = Ok lines →
    ∃ heights,
      Forall2 (λ (row : list Cell) h, py_max (len <$> row) = Ok h) l heights ∧
      len lines = len acc + py_sum heights + Z.max 0 (len l - 1).
Proof.
  induction l as [|row l IH]; intros k acc lines Hk Hlines.
  - injection Hlines as <-. exists []. split; [constructor|].
    unfold py_sum, len. simpl. lia.
  - change (zip (seq k (length (row :: l))) (row :: l))
      with ((k, row) :: zip (seq (S k) (length l)) l) in Hlines.
    rewrite for_each_cons in Hlines.
    apply bind_Ok in Hlines as (acc' & Hrow & Hlines).
    apply row_lines_Ok in Hrow as (h & block & Hmax & Hblock & ->).
    apply IH in Hlines as (heights & Hheights & Hlen); [|simpl in Hk; lia].
    exists (h :: heights). split; [by constructor|].
    rewrite Hlen, py_sum_cons, !len_app.
    apply list_comp_length in Hblock. unfold range in Hblock.
    rewrite length_seq in Hblock.
    assert (0 ≤ h) as Hh.
    { apply py_max_Ok in Hmax as [Hin _].
      apply list_elem_of_fmap in Hin as (cell & -> & _). apply len_nonneg. }
    assert (len block = h) as -> by (unfold len; lia).
    assert (len (row :: l) = len l + 1) as -> by (unfold len; simpl length; lia).
    assert (len (cells t) = Z.of_nat k + len l + 1) as ->
      by (unfold len; simpl in Hk; lia).
    destruct l as [|row' l].
    + change (len []) with 0.
      destruct (Z.ltb_spec (Z.of_nat k) (Z.of_nat k + 0 + 1 - 1)) as [Hlt|Hge]; [lia|].
      change (len []) with 0. lia.
    + assert (1 ≤ len (row' :: l)) as Hpos by (unfold len; simpl length; lia).
      destruct (Z.ltb_spec (Z.of_nat k) (Z.of_nat k + len (row' :: l) + 1 - 1))
        as [Hlt|Hge]; [|lia].
      change (len [middle t]) with 1. lia.
Qed.

(** X11: the table has one line ([top]) or three lines (with a title) at
    its head, then for each row as many text lines as the tallest cell of
    the row has lines, and one border line per row: the [middle] line after
    every row but the last, and [bottom]. *)
Theorem table_line_count (self : CSV2TXT) (rows : list (list (option str)))
    (title : option str) (out : str) :
  rows ≠ [] →
  render self rows title = Ok out →
  ∃ t lines heights,
    layout self rows = Ok t ∧
    out = join [LF] lines ∧
    Forall2 (λ (row : list Cell) h, py_max (len <$> row) = Ok h) (cells t) heights ∧
    len (cells t) = len rows ∧
    len lines =
      match title with Some (_ :: _) => 3 | _ => 1 end +
      py_sum heights + len rows.
Proof.
  intros Hrows Hout.
  destruct (render_Ok _ _ _ _ Hrows Hout) as (t & lines & Ht & Hlines & ->).
  apply (row_loop_count self t (cells t) 0) in Hlines as (heights & Hheights & Hlen);
    [|done].
  exists t, (lines ++ [bottom t]), heights. split; [exact Ht|].
  apply layout_Ok in Ht as (cols & g & Hgrid & _).
  destruct (grid_Ok _ _ _ _ Hgrid) as (_ & _ & _ & Hcells).
  apply Forall2_length in Hcells.
  assert (len (cells t) = len rows) as Hsame by (unfold len; lia).
  assert (1 ≤ len rows) as Hpos.
  { destruct rows; [done|]. unfold len. simpl length. lia. }
  repeat split; try done.
  rewrite len_app, Hlen, Hsame. change (len [bottom t]) with 1.
  assert (len (head_lines self t title) =
          match title with Some (_ :: _) => 3 | _ => 1 end) as ->; [|lia].
  by destruct title as [[|c title']|].
Qed.

Lemma table_line_count_witness :
  ∃ t (lines : list str) heights,
    layout default_config
      [[Some (lit "a"); Some (lit "bb\nc")]; [Some (lit "ccc")]] = Ok t ∧
    render default_config
      [[Some (lit "a"); Some (lit "bb\nc")]; [Some (lit "ccc")]] (Some (lit "T"))
      = Ok (join [LF] lines) ∧
    heights = [2; 1] ∧
    Forall2 (λ (row : list Cell) h, py_max (len <$> row) = Ok h) (cells t) heights ∧
    len lines = 3 + py_sum heights + 2.
Proof.
  destruct (table_line_count default_config
              [[Some (lit "a"); Some (lit "bb\nc")]; [Some (lit "ccc")]]
              (Some (lit "T")) _ ltac:(discriminate) eq_refl)
    as (t & lines & heights & Ht & Hout & Hheights & _ & Hlen).
  exists t, lines, heights. split; [exact Ht|].
  split; [rewrite <- Hout; reflexivity|].
  repeat split; try done.
  vm_compute in Ht. injection Ht as <-.
  repeat (apply Forall2_cons_inv_l in Hheights as (? & ? & Hh & Hheights & ->);
          vm_compute in Hh; injection Hh as <-).
  by apply Forall2_nil_inv_l in Hheights as ->.
Defined.

(** ** Inputs with lines *)

(** After the end of a line the parser is between two records, or inside
    a quoted field that goes on in the next line. *)
Lemma parse_line_state (sep : char) (self self' : Csv.Reader) (line : str) :
  Csv.parse_line sep self line = Ok self' →
  Csv.state self' = Csv.START_RECORD ∨ Csv.state self' = Csv.IN_QUOTED_FIELD.
Proof.
  unfold Csv.parse_line. intros Hline.
  apply bind_Ok in Hline as (r & _ & Hline).
  unfold Csv.parse_process_char, Csv.start_field in Hline.
  destruct (Csv.state r) eqn:Hstate; simpl in Hline;
    injection Hline as <-; simpl; auto.
Qed.

(** Lines, or a quoted field left open, give at least one record. *)
Lemma records_nonempty (sep : char) (input : list str) :
  ∀ (self : Csv.Reader) (rows : list (list str)),
    input ≠ [] ∨ Csv.state self = Csv.IN_QUOTED_FIELD →
    Csv.records sep self input = Ok rows →
    rows ≠ [].
Proof.
  induction input as [|line input IH]; intros self rows Hstart Hrows.
  - destruct Hstart as [Hne|Hquoted]; [done|]. simpl in Hrows.
    rewrite (bool_decide_eq_true_2 (Csv.state self = Csv.IN_QUOTED_FIELD)) in Hrows
      by done.
    rewrite orb_true_r in Hrows. by injection Hrows as <-.
  - simpl in Hrows. apply bind_Ok in Hrows as (self' & Hline & Hrows).
    destruct (parse_line_state _ _ _ _ Hline) as [Hstate|Hstate].
    + rewrite bool_decide_eq_true_2 in Hrows by done.
      apply bind_Ok in Hrows as (rows' & _ & Hrows). by injection Hrows as <-.
    + rewrite bool_decide_eq_false_2 in Hrows by (by rewrite Hstate).
      eapply IH; [by right|exact Hrows].
Qed.

(** X12: an input with at least one line has at least one row, and
    [generate] does not return the empty string for it: it returns a table
    or raises. *)
Theorem generate_input_with_lines (self : CSV2TXT) (input : list str)
    (title : option str) :
  input ≠ [] →
  get_rows self input ≠ Ok [] ∧ generate self input title ≠ Ok [].
Proof.
  intros Hinput.
  assert (∀ rows, get_rows self input = Ok rows → rows ≠ []) as Hrows.
  { intros rows Hrows. unfold get_rows in Hrows.
    apply bind_Ok in Hrows as (parser & Hparser & Hrows). injection Hrows as <-.
    unfold Csv.reader in Hparser.
    apply records_nonempty in Hparser; [|left; by destruct input].
    by destruct parser. }
  split; [intros Hnone; by apply Hrows in Hnone|].
  unfold generate. intros Hout.
  apply bind_Ok in Hout as (rows & Hget & Hout). apply Hrows in Hget.
  apply render_Ok in Hout as (t & lines & _ & Hlines & Hout); [|by destruct rows].
  apply (for_each_append _ _ (row_lines_append self t)) in Hlines as [body ->].
  assert (∃ first rest, head_lines self t title ++ body = first :: rest)
    as (first & rest & Hhead).
  { unfold head_lines. destruct title as [[|c title']|]; simpl; eauto. }
  rewrite Hhead in Hout. change ((first :: rest) ++ [bottom t])
    with (first :: (rest ++ [bottom t])) in Hout.
  rewrite join_cons in Hout by (by destruct rest).
  by destruct first.
Qed.

Lemma generate_input_with_lines_witness :
  get_rows default_config [lit "a,b"] ≠ Ok [] ∧
  generate default_config [lit "a,b"] None ≠ Ok [].
Proof.
  apply (generate_input_with_lines default_config [lit "a,b"] None). discriminate.
Defined.

(** ** Quoted fields *)

(** Inside a quoted field every character but the quote is added. *)
Lemma in_quoted_run (sep : char) (g fd : str) (fds : list str) :
  Forall (λ c, c ≠ DQUOTE) g →
  len fd + len g ≤ Csv.field_limit →
  for_each (λ self c, Csv.parse_process_char sep self (Some c))
    {| Csv.state := Csv.IN_QUOTED_FIELD; Csv.field := fd; Csv.fields := fds |} g =
  Ok {| Csv.state := Csv.IN_QUOTED_FIELD; Csv.field := reverse g ++ fd;
        Csv.fields := fds |}.
Proof.
  intros Hg. revert fd. induction Hg as [|c g Hc _ IH]; intros fd Hlen; [done|].
  apply N.eqb_neq in Hc.
  rewrite for_each_cons. unfold Csv.parse_process_char at 1. simpl.
  rewrite Hc. unfold Csv.parse_add_char. simpl.
  assert (len (c :: g) = len g + 1) as Hcons by (unfold len; simpl length; lia).
  pose proof (len_nonneg g) as Hnonneg.
  destruct (Z.leb_spec Csv.field_limit (len fd)) as [|_]; [lia|]. simpl.
  rewrite IH.
  - by rewrite reverse_cons, <- app_assoc.
  - assert (len (c :: fd) = len fd + 1) as -> by (unfold len; simpl length; lia). lia.
Qed.

(** A quoted field, read from the start of a field up to its closing
    quote. *)
Lemma quoted_field_run (sep : char) (q : str) (fds : list str) :
  Forall (λ c, c ≠ DQUOTE) q →
  len q ≤ Csv.field_limit →
  for_each (λ self c, Csv.parse_process_char sep self (Some c))
    {| Csv.state := Csv.START_FIELD; Csv.field := []; Csv.fields := fds |} (quoted q) =
  Ok {| Csv.state := Csv.QUOTE_IN_QUOTED_FIELD; Csv.field := reverse q;
        Csv.fields := fds |}.
Proof.
  intros Hq Hlen. unfold quoted. rewrite for_each_cons.
  unfold Csv.parse_process_char at 1. unfold Csv.start_field. simpl.
  unfold Csv.set_state. simpl.
  rewrite for_each_app, in_quoted_run by (done || (change (len []) with 0; lia)).
  simpl. by rewrite app_nil_r.
Qed.

Lemma closed_quote_separator (sep : char) (fd : str) (fds : list str) :
  sep ∉ [DQUOTE; CR; LF; SP] →
  Csv.parse_process_char sep
    {| Csv.state := Csv.QUOTE_IN_QUOTED_FIELD; Csv.field := fd; Csv.fields := fds |}
    (Some sep) =
  Ok {| Csv.state := Csv.START_FIELD; Csv.field := []; Csv.fields := reverse fd :: fds |}.
Proof.
  intros Hsep. apply separator_tests in Hsep as (Hq & _).
  unfold Csv.parse_process_char. simpl. by rewrite Hq, N.eqb_refl.
Qed.

(** A line of quoted fields, read from the start of a field. *)
Lemma quoted_fields_run (sep : char) (qs : list str) (fds : list str) :
  sep ∉ [DQUOTE; CR; LF; SP] →
  qs ≠ [] →
  Forall (λ q, Forall (λ c, c ≠ DQUOTE) q ∧ len q ≤ Csv.field_limit) qs →
  Csv.parse_line sep
    {| Csv.state := Csv.START_FIELD; Csv.field := []; Csv.fields := fds |}
    (join [sep] (quoted <$> qs)) =
  Ok {| Csv.state := Csv.START_RECORD; Csv.field := [];
        Csv.fields := reverse qs ++ fds |}.
Proof.
  intros Hsep Hne Hqs. revert fds.
  induction Hqs as [|q qs [Hq Hlen] _ IH]; intros fds; [done|]. clear Hne.
  destruct qs as [|q' qs].
  - simpl join. rewrite <- (app_nil_r (quoted q)), parse_line_app, quoted_field_run
      by done.
    simpl. unfold Csv.parse_line. simpl. unfold Csv.parse_process_char. simpl.
    unfold Csv.parse_save_field, Csv.set_state. simpl.
    by rewrite reverse_involutive.
  - change (join [sep] (quoted <$> q :: q' :: qs))
      with (quoted q ++ sep :: join [sep] (quoted <$> q' :: qs)).
    rewrite parse_line_app, quoted_field_run by done. simpl.
    rewrite parse_line_cons, closed_quote_separator by done. simpl.
    rewrite IH by done.
    by rewrite reverse_involutive, (reverse_cons (q' :: qs) q), <- app_assoc.
Qed.

(** X13: inside double quotes the separator, spaces and line breaks are
    text: a line of quoted fields with the separator between them is read
    as one row whose cells are the texts between the quotes. *)
Theorem get_rows_quoted_fields (self : CSV2TXT) (qs : list str) :
  ordinary_separator (separator self) →
  qs ≠ [] →
  Forall quotable qs →
  get_rows self [join [separator self] (quoted <$> qs)] = Ok [qs].
Proof.
  intros [Hsep Hcom] Hne Hqs. set (sep := separator self) in *.
  assert (sep ∉ [DQUOTE; CR; LF; SP]) as Hsep'.
  { revert Hsep. rewrite !not_elem_of_cons. tauto. }
  assert (sep ≠ BACKSLASH) as Hback.
  { revert Hsep. rewrite !not_elem_of_cons. tauto. }
  assert (Forall (λ q, Forall (λ c, c ≠ DQUOTE) q ∧ len q ≤ Csv.field_limit) qs)
    as Hquote.
  { eapply Forall_impl; [exact Hqs|]. intros q [Hq Hlen]. split; [|done].
    eapply Forall_impl; [exact Hq|]. intros c. rewrite !not_elem_of_cons. tauto. }
  unfold get_rows. cbv zeta. fold sep.
  assert (replace (join [sep] (quoted <$> qs)) [BACKSLASH; sep] com =
          join [sep] (quoted <$> qs)) as Hline.
  { unfold replace. apply replace_scan_unchanged, Forall_join.
    - constructor; [done|constructor].
    - apply Forall_fmap. eapply Forall_impl; [exact Hqs|]. intros q [Hq _].
      unfold quoted. simpl. constructor; [done|]. apply Forall_app. split.
      + eapply Forall_impl; [exact Hq|]. intros c. rewrite !not_elem_of_cons. tauto.
      + constructor; [done|constructor]. }
  change ((λ line, replace line [BACKSLASH; sep] com) <$>
          [join [sep] (quoted <$> qs)])
    with [replace (join [sep] (quoted <$> qs)) [BACKSLASH; sep] com].
  rewrite Hline. unfold Csv.reader.
  assert (Csv.parse_line sep Csv.parse_reset (join [sep] (quoted <$> qs)) =
          Csv.parse_line sep
            {| Csv.state := Csv.START_FIELD; Csv.field := []; Csv.fields := [] |}
            (join [sep] (quoted <$> qs))) as Hstart.
  { destruct qs as [|q qs]; [done|].
    assert (∃ rest, join [sep] (quoted <$> q :: qs) = DQUOTE :: rest) as [rest ->].
    { destruct qs; simpl; unfold quoted; simpl; eauto. }
    by rewrite !parse_line_cons. }
  cbn [Csv.records]. rewrite Hstart, quoted_fields_run by done.
  cbv beta iota delta [bind]. simpl.
  rewrite app_nil_r, reverse_involutive. f_equal. f_equal.
  clear -Hqs. induction Hqs as [|q qs [Hq _] _ IH]; [done|].
  rewrite fmap_cons, IH. f_equal.
  unfold replace. change com with (UNDERSCORE :: lit "_COMMA__").
  apply replace_scan_unchanged.
  eapply Forall_impl; [exact Hq|]. intros c. rewrite !not_elem_of_cons. tauto.
Qed.

Lemma get_rows_quoted_fields_witness :
  get_rows default_config [quoted (lit "a, b") ++ lit "," ++ quoted (lit " c")] =
  Ok [[lit "a, b"; lit " c"]].
Proof.
  apply (get_rows_quoted_fields default_config [lit "a, b"; lit " c"]).
  - split; vm_compute; intros Hin;
      repeat (apply elem_of_cons in Hin as [Hin|Hin]; [discriminate|]);
      by apply elem_of_nil in Hin.
  - discriminate.
  - repeat first [apply Forall_nil_2 | apply Forall_cons_2];
      (split; [|vm_compute; discriminate]);
      repeat first [apply Forall_nil_2 | apply Forall_cons_2];
      vm_compute; intros Hin;
      repeat (apply elem_of_cons in Hin as [Hin|Hin]; [discriminate|]);
      by apply elem_of_nil in Hin.
Defined.

(** ** The characters of the lines of a cell *)

Section Characters.

Variable P : char → Prop.

Lemma fill_line_chars (width : Z) (chunks cur_line : list str) (cur_len : Z)
    (cur_line' chunks' : list str) (cur_len' : Z) :
  Forall (Forall P) cur_line →
  Forall (Forall P) chunks →
  TextWrap.fill_line width cur_line cur_len chunks = (cur_line', cur_len', chunks') →
  Forall (Forall P) cur_line' ∧ Forall (Forall P) chunks'.
Proof.
  intros Hline Hchunks. revert cur_line cur_len Hline.
  induction Hchunks as [|chunk chunks Hchunk Hchunks IH];
    intros cur_line cur_len Hline Hfill; simpl in Hfill.
  - injection Hfill as <- <- <-. by split.
  - destruct (cur_len + len chunk <=? width).
    + eapply IH; [|exact Hfill]. apply Forall_app. split; [done|]. by constructor.
    + injection Hfill as <- <- <-. split; [done|]. by constructor.
Qed.

Lemma handle_long_word_chars (chunks cur_line : list str) (cur_len width : Z)
    (chunks' cur_line' : list str) :
  Forall (Forall P) chunks →
  Forall (Forall P) cur_line →
  TextWrap.handle_long_word chunks cur_line cur_len width = (chunks', cur_line') →
  Forall (Forall P) chunks' ∧ Forall (Forall P) cur_line'.
Proof.
  intros Hchunks Hline. unfold TextWrap.handle_long_word.
  destruct Hchunks as [|chunk rest Hchunk Hrest].
  - intros [= <- <-]. by split.
  - cbv zeta. intros [= <- <-]. split.
    + constructor; [|done]. unfold TextWrap.from. by apply Forall_drop.
    + apply Forall_app. split; [done|]. constructor; [|done].
      unfold TextWrap.upto. by apply Forall_take.
Qed.

Lemma drop_blank_end_chars (cur_line : list str) :
  Forall (Forall P) cur_line → Forall (Forall P) (TextWrap.drop_blank_end cur_line).
Proof.
  intros Hline. unfold TextWrap.drop_blank_end.
  destruct (reverse cur_line) as [|c before] eqn:Hrev; [done|].
  destruct (isblank c); [|done].
  apply Forall_reverse in Hline. rewrite Hrev in Hline.
  apply Forall_cons_1 in Hline as [_ Hbefore]. by apply Forall_reverse.
Qed.

Lemma wrap_line_chars (width : Z) (lines chunks lines' chunks' : list str) :
  Forall (Forall P) lines →
  Forall (Forall P) chunks →
  TextWrap.wrap_line width lines chunks = (lines', chunks') →
  Forall (Forall P) lines' ∧ Forall (Forall P) chunks'.
Proof.
  intros Hlines Hchunks. unfold TextWrap.wrap_line.
  set (chunks1 := match chunks, lines with
                  | c :: cs, _ :: _ => if isblank c then cs else chunks
                  | _, _ => chunks
                  end).
  assert (Forall (Forall P) chunks1) as Hchunks1.
  { subst chunks1. destruct Hchunks as [|c cs Hc Hcs]; [done|].
    destruct lines; [by constructor|]. destruct (isblank c); [done|by constructor]. }
  clearbody chunks1.
  destruct (TextWrap.fill_line width [] 0 chunks1) as [[cur_line cur_len] chunks2]
    eqn:Hfill.
  apply fill_line_chars in Hfill as [Hcur Hchunks2]; [|constructor|done].
  assert (∀ cur_line3 chunks3 : list str,
            Forall (Forall P) cur_line3 → Forall (Forall P) chunks3 →
            (match TextWrap.drop_blank_end cur_line3 with
             | [] => lines
             | _ :: _ => lines ++ [concat (TextWrap.drop_blank_end cur_line3)]
             end, chunks3) = (lines', chunks') →
            Forall (Forall P) lines' ∧ Forall (Forall P) chunks') as Hfinish.
  { intros cur_line3 chunks3 Hcur3 Hchunks3 Heq.
    pose proof (drop_blank_end_chars cur_line3 Hcur3) as Hdrop.
    destruct (TextWrap.drop_blank_end cur_line3) as [|x xs].
    - injection Heq as <- <-. by split.
    - injection Heq as <- <-. split; [|done].
      apply Forall_app. split; [done|]. constructor; [|done].
      by apply (Forall_concat P (x :: xs)). }
  destruct chunks2 as [|c rest]; [by apply Hfinish|].
  destruct (width <? len c); [|by apply Hfinish].
  destruct (TextWrap.handle_long_word (c :: rest) cur_line cur_len width)
    as [chunks3 cur_line3] eqn:Hlong_word.
  apply handle_long_word_chars in Hlong_word as [Hchunks3 Hcur3]; [|done..].
  by apply Hfinish.
Qed.

Lemma wrap_chunks_chars (fuel : nat) (width : Z) (lines chunks out : list str) :
  Forall (Forall P) lines →
  Forall (Forall P) chunks →
  TextWrap.wrap_chunks fuel width lines chunks = Ok out →
  Forall (Forall P) out.
Proof.
  revert lines chunks.
  induction fuel as [|fuel IH]; intros lines chunks Hlines Hchunks Hout.
  - destruct chunks; simpl in Hout; [by injection Hout as <-|done].
  - destruct chunks as [|c cs]; simpl in Hout; [by injection Hout as <-|].
    destruct (TextWrap.wrap_line width lines (c :: cs)) as [lines' chunks'] eqn:Hline.
    destruct (wrap_line_chars _ _ _ _ _ Hlines Hchunks Hline) as [Hlines' Hchunks'].
    exact (IH _ _ Hlines' Hchunks' Hout).
Qed.

Hypothesis P_space : P SP.

Lemma expandtabs_chars (tabsize column : Z) (s : str) :
  Forall P s → Forall P (expandtabs_from tabsize column s).
Proof.
  intros Hs. revert column. induction Hs as [|c s Hc _ IH]; intros column; [done|].
  simpl. destruct (c =? TAB)%N.
  - destruct (0 <? tabsize); [|done]. apply Forall_app. split; [|done].
    rewrite times_singleton. by apply Forall_replicate.
  - by constructor.
Qed.

Lemma munge_whitespace_chars (s : str) :
  Forall P s → Forall P (TextWrap.munge_whitespace s).
Proof.
  intros Hs. unfold TextWrap.munge_whitespace, expandtabs.
  apply Forall_fmap. eapply Forall_impl; [by apply expandtabs_chars|].
  intros c Hc. simpl. by destruct (TextWrap.is_whitespace c).
Qed.

(** The lines of [wrap] are made of characters of the text and of spaces. *)
Lemma wrap_chars (text : str) (width : Z) (lines : list str) :
  Forall P text →
  TextWrap.wrap text width = Ok lines →
  Forall (Forall P) lines.
Proof.
  intros Htext. unfold TextWrap.wrap. destruct (width <=? 0); [done|].
  apply wrap_chunks_chars; [constructor|].
  apply Forall_concat. unfold TextWrap.split_chunks.
  rewrite chunks_from_concat. simpl. by apply munge_whitespace_chars.
Qed.

End Characters.

Lemma pieces_no_linebreak (s : str) :
  ∀ (after_cr : bool) (l : str) (ls : list str),
    pieces after_cr s = (l, ls) →
    Forall (Forall (λ c, is_linebreak c = false)) (l :: ls).
Proof.
  induction s as [|c s IH]; intros after_cr l ls Hpieces; simpl in Hpieces.
  - injection Hpieces as <- <-. by repeat constructor.
  - destruct (after_cr && (c =? LF)%N); [by eapply IH|].
    destruct (is_linebreak c) eqn:Hbreak.
    + destruct (pieces (c =? CR)%N s) as [l' ls'] eqn:Hrest.
      injection Hpieces as <- <-. constructor; [done|]. by eapply IH.
    + destruct (pieces false s) as [l' ls'] eqn:Hrest.
      injection Hpieces as <- <-. apply IH in Hrest.
      apply Forall_cons_1 in Hrest as [Hl' Hls']. by repeat constructor.
Qed.

Lemma drop_last_empty_Forall {Q : str → Prop} (ls : list str) :
  Forall Q ls → Forall Q (drop_last_empty ls).
Proof.
  induction 1 as [|l ls Hl Hls IH]; [done|]. simpl.
  destruct ls as [|l' ls]; [destruct l; by repeat constructor|].
  by constructor.
Qed.

Lemma splitlines_no_linebreak (s : str) :
  Forall (Forall (λ c, is_linebreak c = false)) (splitlines s).
Proof.
  unfold splitlines. destruct (pieces false s) as [l ls] eqn:Hpieces.
  apply drop_last_empty_Forall. by eapply pieces_no_linebreak.
Qed.

(** X14: no line of a wrapped cell holds a line break character, with or
    without [max_width]: every line boundary of the escaped text ends a
    line, and wrapping adds none. *)
Theorem wrap_cell_no_linebreak (self : CSV2TXT) (text : option str)
    (lines : list str) :
  wrap_cell self text = Ok lines →
  Forall (Forall (λ c, is_linebreak c = false)) lines.
Proof.
  destruct text as [text|]; simpl.
  - intros Hlines. apply bind_Ok in Hlines as (wrapped & Hwrapped & Hlines).
    injection Hlines as <-.
    assert (Forall (Forall (λ c, is_linebreak c = false)) wrapped) as Hall.
    { eapply (for_each_invariant (Forall (Forall (λ c, is_linebreak c = false))));
        [|constructor|exact Hwrapped].
      intros acc line acc' Hacc Hin Hbody.
      assert (Forall (λ c, is_linebreak c = false) line) as Hline.
      { pose proof (splitlines_no_linebreak (escape self text)) as Hsplit.
        destruct (splitlines (escape self text)) as [|l ls] eqn:Hls.
        - simpl in Hin. apply list_elem_of_singleton in Hin as ->. constructor.
        - simpl in Hin. rewrite Forall_forall in Hsplit. by apply Hsplit. }
      unfold wrap_line_of in Hbody.
      assert (acc' = acc ++ [line] → Forall (Forall (λ c, is_linebreak c = false)) acc')
        as Hsame.
      { intros ->. apply Forall_app. split; [done|]. by constructor. }
      destruct (max_width self) as [width|]; [|injection Hbody as <-; by apply Hsame].
      destruct (width =? 0); [injection Hbody as <-; by apply Hsame|].
      apply bind_Ok in Hbody as (ws & Hws & Hbody). injection Hbody as <-.
      apply Forall_app. split; [done|].
      by eapply (wrap_chars (λ c, is_linebreak c = false)). }
    destruct wrapped; [|done]. simpl. by repeat constructor.
  - intros [= <-]. by repeat constructor.
Qed.

Lemma wrap_cell_no_linebreak_witness :
  ∃ lines,
    wrap_cell (with_max_width default_config (Some 4)) (Some (lit "ab\ncdefg h"))
      = Ok lines ∧
    len lines = 3 ∧
    Forall (Forall (λ c, is_linebreak c = false)) lines.
Proof.
  eexists. split; [vm_compute; reflexivity|]. split; [reflexivity|].
  exact (wrap_cell_no_linebreak (with_max_width default_config (Some 4))
           (Some (lit "ab\ncdefg h")) _ eq_refl).
Defined.

(** ** Line breaks inside a line *)

(** After a line break only line breaks and the end of the line are
    accepted. *)
Lemma eat_crnl_raises (sep : char) (fd : str) (fds : list str) (c : char) (rest : str) :
  c ∉ [CR; LF] →
  Csv.parse_line sep
    {| Csv.state := Csv.EAT_CRNL; Csv.field := fd; Csv.fields := fds |} (c :: rest) =
  Raise CsvError.
Proof.
  rewrite !not_elem_of_cons. intros (Hcr & Hlf & _).
  apply N.eqb_neq in Hcr, Hlf.
  rewrite parse_line_cons. unfold Csv.parse_process_char. simpl.
  by rewrite Hcr, Hlf.
Qed.

Lemma stray_linebreak_raises (sep : char) (a : str) (nl c : char) (rest : str) :
  plain_field sep a →
  nl ∈ [CR; LF] →
  c ∉ [CR; LF] →
  Csv.parse_line sep Csv.parse_reset (a ++ nl :: c :: rest) = Raise CsvError.
Proof.
  intros Ha Hnl Hc.
  assert (Csv.is_newline (Some nl) = true) as Hnewline.
  { apply elem_of_cons in Hnl as [->|Hnl]; [done|].
    by apply list_elem_of_singleton in Hnl as ->. }
  destruct a as [|x a].
  - rewrite app_nil_l, parse_line_cons. unfold Csv.parse_process_char at 1.
    cbn [Csv.state Csv.parse_reset]. rewrite Hnewline.
    rewrite (bool_decide_eq_false_2 (Some nl = None)) by done.
    cbv beta iota delta [bind]. by apply eat_crnl_raises.
  - assert (Csv.parse_line sep Csv.parse_reset ((x :: a) ++ nl :: c :: rest) =
            Csv.parse_line sep
              {| Csv.state := Csv.START_FIELD; Csv.field := []; Csv.fields := [] |}
              ((x :: a) ++ nl :: c :: rest)) as ->.
    { destruct Ha as (Hchars & _). apply Forall_cons_1 in Hchars as [Hx _].
      apply field_char_tests in Hx as (_ & _ & Hcr & Hlf).
      change ((x :: a) ++ nl :: c :: rest) with (x :: (a ++ nl :: c :: rest)).
      rewrite !parse_line_cons. f_equal.
      unfold Csv.parse_process_char. simpl. by rewrite Hcr, Hlf. }
    rewrite parse_line_app, field_run by done.
    cbv beta iota delta [bind]. rewrite parse_line_cons.
    unfold Csv.parse_process_char at 1. cbn [after_field Csv.state].
    rewrite Hnewline. cbn [orb]. cbv beta iota delta [bind].
    by apply eat_crnl_raises.
Qed.

(** X15: a line break inside a line, after an unquoted field and before
    further text, makes [generate] raise [csv.Error]: the lines are given to
    [csv.reader] as they are. *)
Theorem generate_stray_linebreak (self : CSV2TXT) (a : str) (nl c : char)
    (rest : str) (more : list str) (title : option str) :
  plain_field (separator self) a →
  Forall (λ x, x ≠ BACKSLASH) a →
  nl ∈ [CR; LF] →
  c ∉ [CR; LF; BACKSLASH] →
  get_rows self ((a ++ nl :: c :: rest) :: more) = Raise CsvError ∧
  generate self ((a ++ nl :: c :: rest) :: more) title = Raise CsvError.
Proof.
  intros Ha Hback Hnl Hc.
  assert (get_rows self ((a ++ nl :: c :: rest) :: more) = Raise CsvError) as Hrows;
    [|split; [done|]; unfold generate; by rewrite Hrows].
  assert (nl ≠ BACKSLASH) as Hnl'.
  { apply elem_of_cons in Hnl as [->|Hnl]; [done|].
    by apply list_elem_of_singleton in Hnl as ->. }
  assert (c ≠ BACKSLASH ∧ c ∉ [CR; LF]) as [Hc' Hc''].
  { revert Hc. rewrite !not_elem_of_cons. tauto. }
  unfold get_rows. cbv zeta. rewrite fmap_cons. unfold replace at 1.
  replace (a ++ nl :: c :: rest) with ((a ++ [nl; c]) ++ rest)
    by (by rewrite <- app_assoc).
  rewrite replace_scan_pass.
  2:{ apply Forall_app. split; [done|]. by repeat constructor. }
  rewrite <- app_assoc. change ([nl; c] ++ ?r) with (nl :: c :: r).
  unfold Csv.reader. cbn [Csv.records].
  by rewrite stray_linebreak_raises.
Qed.

Lemma generate_stray_linebreak_witness :
  get_rows default_config [lit "ab" ++ [CR] ++ lit "c"; lit "d"] = Raise CsvError ∧
  generate default_config [lit "ab" ++ [CR] ++ lit "c"; lit "d"] None = Raise CsvError.
Proof.
  apply (generate_stray_linebreak default_config (lit "ab") CR 99%N [] [lit "d"] None).
  - split; [|split; [discriminate|vm_compute; discriminate]].
    repeat first [apply Forall_nil_2 | apply Forall_cons_2];
      vm_compute; intros Hin;
      repeat (apply elem_of_cons in Hin as [Hin|Hin]; [discriminate|]);
      by apply elem_of_nil in Hin.
  - repeat first [apply Forall_nil_2 | apply Forall_cons_2]; discriminate.
  - left.
  - intros Hin.
    repeat (apply elem_of_cons in Hin as [Hin|Hin]; [discriminate|]).
    by apply elem_of_nil in Hin.
Defined.
